(** * graph_tool.spectral: adjacency, Laplacian and incidence matrices

    A shallow embedding of [src/graph_tool/spectral/__init__.py].

    - Matrix entries are numpy [float64] values.  They are idealised as
      real numbers, extended with one value [NonFinite] standing for
      the IEEE results [inf], [-inf] and [nan] that numpy produces for
      a division by zero or the square root of a negative number.
      The idealisation has no rounding: a property is stated for all
      weight maps only where it follows the additions of the code in
      their order, and a property that regroups or reorders sums is
      stated for graphs without a weight map, whose entries and
      degrees are small integers, exact in [float64].
    - Python exceptions are values of an error monad.
    - The graph, its property maps, numpy's dense matrix and scipy's
      [lil_matrix] / [csr_matrix] are collaborators of the module; they
      are modelled by the small interfaces below. *)

From Stdlib Require Import String.
From Stdlib Require Import List Arith Bool Lia Reals Lra Permutation.
Import ListNotations.

(** ** Exceptions and the error monad *)

Inductive exn : Set :=
| InvalidArgument   (* raised by the [_limit_args] decorator *)
| IndexError.       (* raised by an out-of-range matrix subscript *)

Inductive result (A : Type) : Type :=
| Ok (a : A)
| Raise (e : exn).

Arguments Ok {A} a.
Arguments Raise {A} e.

Definition bind {A B} (r : result A) (k : A -> result B) : result B :=
  match r with
  | Ok a => k a
  | Raise e => Raise e
  end.

Declare Scope py_scope.
Delimit Scope py_scope with py.
Notation "x <- c ;; k" := (bind c (fun x => k))
  (at level 61, c at next level, right associativity) : py_scope.
Local Open Scope py_scope.

(** [for x in l: a = f(a, x)], stopping at the first exception. *)
Fixpoint foldM {A B} (f : A -> B -> result A) (l : list B) (a : A) : result A :=
  match l with
  | [] => Ok a
  | x :: t => a' <- f a x ;; foldM f t a'
  end.

(** [enumerate(l)] *)
Definition enumerate {A} (l : list A) : list (nat * A) :=
  combine (seq 0 (length l)) l.

(** ** Matrix entries *)

Inductive num : Type :=
| Fin (r : R)
| NonFinite.

(** float addition, without rounding: a non-finite operand gives a
    non-finite result *)
Definition nadd (x y : num) : num :=
  match x, y with
  | Fin a, Fin b => Fin (a + b)
  | _, _ => NonFinite
  end.

(** [x != 0] on a float *)
Definition nonzero (x : num) : bool :=
  match x with
  | Fin r => if Req_dec_T r 0 then false else true
  | NonFinite => true
  end.

(** [- w / sqrt(x)] as numpy evaluates it on finite [w] and [x]:
    [sqrt] of a negative number is [nan], a division by zero is
    [inf], [-inf] or [nan] (a warning, not an exception). *)
Definition neg_div_sqrt (w x : R) : num :=
  if Rle_dec x 0 then NonFinite else Fin (- w / sqrt x).

(** [sum] of a generator of floats: the additions from 0 in the order
    of the generator, without rounding *)
Definition sum (l : list R) : R := fold_left Rplus l 0%R.

(** ** Property maps

    A graph-tool property map is a vector indexed by the vertex (or
    edge) index; a new ["int64_t"] map is zero everywhere. *)

Definition PropertyMap (A : Type) : Type := nat -> A.

Definition new_property {A} (dflt : A) : PropertyMap A := fun _ => dflt.

Definition pm_set {A} (pm : PropertyMap A) (k : nat) (a : A) : PropertyMap A :=
  fun k' => if k' =? k then a else pm k'.

(** ** The graph collaborator *)

(** An edge descriptor: its endpoints as seen by the traversal that
    produced it, and the index of the edge (the key of edge property
    maps). *)
Record Edge : Set := mkEdge { source : nat; target : nat; eid : nat }.

(** Modelled from the spec: the [Graph] class is not part of the module.
    A graph snapshot lists its active vertices (by their intrinsic
    ordinal) and its active edges in iteration order, carries a
    directedness flag and an optional vertex filter. *)
Record Graph : Type := mkGraph {
  is_directed : bool;
  get_vertex_filter : option (PropertyMap bool) * bool;
  vertices : list nat;
  edges : list Edge
}.

Definition vertex_index : PropertyMap nat := fun v => v.
Definition num_vertices (g : Graph) : nat := length (vertices g).
Definition num_edges (g : Graph) : nat := length (edges g).

(** the descriptor of an undirected edge seen from its other endpoint *)
Definition flip (e : Edge) : Edge := mkEdge (target e) (source e) (eid e).

(** Modelled from the spec: [v.out_edges()].  In a directed graph the
    edges leaving [v]; in an undirected graph every edge incident to
    [v], oriented away from [v] (a self-loop is met from both of its
    ends). *)
Definition out_edges (g : Graph) (v : nat) : list Edge :=
  if is_directed g then filter (fun e => source e =? v) (edges g)
  else filter (fun e => source e =? v) (edges g)
       ++ map flip (filter (fun e => target e =? v) (edges g)).

(** Modelled from the spec: [v.in_edges()].  An undirected graph has no
    in-edges: all its edges are out-edges. *)
Definition in_edges (g : Graph) (v : nat) : list Edge :=
  if is_directed g then filter (fun e => target e =? v) (edges g) else [].

(** Modelled from the spec: [v.all_edges()]. *)
Definition all_edges (g : Graph) (v : nat) : list Edge :=
  out_edges g v ++ in_edges g v.

Definition out_degree (g : Graph) (v : nat) : nat := length (out_edges g v).
Definition in_degree (g : Graph) (v : nat) : nat := length (in_edges g v).

(** What the module assumes of a graph snapshot: vertices are distinct,
    the intrinsic ordinals are dense when no filter is set, every
    active edge joins two active vertices, and edge indices are
    distinct. *)
Record graph_ok (g : Graph) : Prop := {
  ok_nodup : NoDup (vertices g);
  ok_dense : fst (get_vertex_filter g) = None ->
             vertices g = seq 0 (length (vertices g));
  ok_ends : forall e, In e (edges g) ->
            In (source e) (vertices g) /\ In (target e) (vertices g);
  ok_eids : NoDup (map eid (edges g))
}.

(** ** Matrix stores

    [m[i, j]] and [m[i, j] = x] on the two kinds of matrix the module
    allocates.  Both raise [IndexError] outside the shape. *)

Class Store (M : Type) : Type := {
  new_matrix : nat -> nat -> M;
  shape : M -> nat * nat;
  getitem : M -> nat -> nat -> result num;
  setitem : M -> nat -> nat -> num -> result M;
  rep_ok : M -> Prop
}.

Definition in_shape (s : nat * nat) (i j : nat) : bool :=
  (i <? fst s) && (j <? snd s).

(** [m[i, j] += x] *)
Definition iadd {M} `{Store M} (m : M) (i j : nat) (x : num) : result M :=
  y <- getitem m i j ;; setitem m i j (nadd y x).

(** replace the [i]-th element of a list *)
Fixpoint update {A} (i : nat) (f : A -> A) (l : list A) : list A :=
  match l, i with
  | [], _ => []
  | x :: t, O => f x :: t
  | x :: t, S i' => x :: update i' f t
  end.

(** *** numpy: [matrix(zeros((N, M)))] *)

Record dense : Type := mkDense {
  d_shape : nat * nat;
  d_rows : list (list num)
}.

Definition zeros (r c : nat) : dense :=
  mkDense (r, c) (repeat (repeat (Fin 0) c) r).

Definition dense_get (m : dense) (i j : nat) : result num :=
  if in_shape (d_shape m) i j
  then Ok (nth j (nth i (d_rows m) []) (Fin 0))
  else Raise IndexError.

Definition dense_set (m : dense) (i j : nat) (x : num) : result dense :=
  if in_shape (d_shape m) i j
  then Ok (mkDense (d_shape m) (update i (update j (fun _ => x)) (d_rows m)))
  else Raise IndexError.

Definition dense_ok (m : dense) : Prop :=
  length (d_rows m) = fst (d_shape m) /\
  Forall (fun row => length row = snd (d_shape m)) (d_rows m).

#[export] Instance dense_store : Store dense := {
  new_matrix := zeros;
  shape := d_shape;
  getitem := dense_get;
  setitem := dense_set;
  rep_ok := dense_ok
}.

(** *** scipy: [lil_matrix((N, M))]

    One list per row, holding the stored columns with their values in
    increasing column order.  Assigning zero removes the entry. *)

Record lil : Type := mkLil {
  l_shape : nat * nat;
  l_rows : list (list (nat * num))
}.

Definition lil_matrix (r c : nat) : lil := mkLil (r, c) (repeat [] r).

Fixpoint row_get (j : nat) (row : list (nat * num)) : num :=
  match row with
  | [] => Fin 0
  | (k, y) :: t => if k =? j then y else row_get j t
  end.

Fixpoint row_insert (j : nat) (x : num) (row : list (nat * num))
  : list (nat * num) :=
  match row with
  | [] => [(j, x)]
  | (k, y) :: t =>
      if j <? k then (j, x) :: (k, y) :: t
      else if j =? k then (j, x) :: t
      else (k, y) :: row_insert j x t
  end.

Definition row_remove (j : nat) (row : list (nat * num)) : list (nat * num) :=
  filter (fun p => negb (fst p =? j)) row.

Definition lil_get (m : lil) (i j : nat) : result num :=
  if in_shape (l_shape m) i j
  then Ok (row_get j (nth i (l_rows m) []))
  else Raise IndexError.

Definition lil_set (m : lil) (i j : nat) (x : num) : result lil :=
  if in_shape (l_shape m) i j
  then Ok (mkLil (l_shape m)
             (update i (if nonzero x then row_insert j x else row_remove j)
                (l_rows m)))
  else Raise IndexError.

Definition lil_ok (m : lil) : Prop := length (l_rows m) = fst (l_shape m).

#[export] Instance lil_store : Store lil := {
  new_matrix := lil_matrix;
  shape := l_shape;
  getitem := lil_get;
  setitem := lil_set;
  rep_ok := lil_ok
}.

(** *** scipy: [m.tocsr()] and [csr_matrix] *)

Record csr : Type := mkCsr {
  c_shape : nat * nat;
  indptr : list nat;
  indices : list nat;
  data : list num
}.

(** running totals of the row lengths, starting at [k] *)
Fixpoint row_ptr {A} (k : nat) (rows : list (list A)) : list nat :=
  match rows with
  | [] => [k]
  | row :: t => k :: row_ptr (k + length row) t
  end.

Definition tocsr (m : lil) : csr :=
  mkCsr (l_shape m) (row_ptr 0 (l_rows m))
        (concat (map (map fst) (l_rows m)))
        (concat (map (map snd) (l_rows m))).

Definition slice {A} (lo hi : nat) (l : list A) : list A :=
  firstn (hi - lo) (skipn lo l).

Definition csr_get (m : csr) (i j : nat) : result num :=
  if in_shape (c_shape m) i j
  then let lo := nth i (indptr m) 0 in
       let hi := nth (S i) (indptr m) 0 in
       Ok (row_get j (combine (slice lo hi (indices m)) (slice lo hi (data m))))
  else Raise IndexError.

(** *** what a call returns: a numpy matrix or a [csr_matrix] *)

Inductive matrix : Type :=
| Dense (m : dense)
| Sparse (m : csr).

Definition mshape (m : matrix) : nat * nat :=
  match m with
  | Dense d => d_shape d
  | Sparse c => c_shape c
  end.

Definition item (m : matrix) (i j : nat) : result num :=
  match m with
  | Dense d => dense_get d i j
  | Sparse c => csr_get c i j
  end.

(** ** The module *)

(** The block that opens each of the three functions:
<<
    if g.get_vertex_filter()[0] != None:
        index = g.new_vertex_property("int64_t")
        for i, v in enumerate(g.vertices()):
            index[v] = i
    else:
        index = g.vertex_index
>> *)
Definition get_index (g : Graph) : PropertyMap nat :=
  match fst (get_vertex_filter g) with
  | Some _ =>
      fold_left (fun index iv => pm_set index (snd iv) (fst iv))
        (enumerate (vertices g)) (new_property 0)
  | None => vertex_index
  end.

(** [eindex] of [incidence] *)
Definition get_eindex (g : Graph) : PropertyMap nat :=
  fold_left (fun eindex ie => pm_set eindex (eid (snd ie)) (fst ie))
    (enumerate (edges g)) (new_property 0).

(** [1 if weight is None else weight[e]] *)
Definition weight_of (weight : option (PropertyMap R)) (e : Edge) : R :=
  match weight with
  | None => 1%R
  | Some w => w (eid e)
  end.

Section Loops.
Context {M : Type} `{Store M}.

(** the loop of [adjacency] *)
Definition adjacency_loop (g : Graph) (index : PropertyMap nat)
    (weight : option (PropertyMap R)) (m : M) : result M :=
  foldM (fun m v =>
    foldM (fun m e =>
      iadd m (index v) (index (target e)) (Fin (weight_of weight e)))
      (out_edges g v) m)
    (vertices g) m.

(** the loop of [incidence] *)
Definition incidence_loop (g : Graph) (index eindex : PropertyMap nat)
    (m : M) : result M :=
  foldM (fun m v =>
    if is_directed g then
      m <- foldM (fun m e => iadd m (index v) (eindex (eid e)) (Fin (-1)))
             (out_edges g v) m ;;
      foldM (fun m e => iadd m (index v) (eindex (eid e)) (Fin 1))
        (in_edges g v) m
    else
      foldM (fun m e => iadd m (index v) (eindex (eid e)) (Fin 1))
        (out_edges g v) m)
    (vertices g) m.
End Loops.

Definition adjacency (g : Graph) (sparse : bool)
    (weight : option (PropertyMap R)) : result matrix :=
  let index := get_index g in
  let N := num_vertices g in
  if sparse then
    m <- adjacency_loop g index weight (lil_matrix N N) ;;
    Ok (Sparse (tocsr m))
  else
    m <- adjacency_loop g index weight (zeros N N) ;;
    Ok (Dense m).

Definition _get_deg (g : Graph) (v : nat) (deg : string)
    (weight : option (PropertyMap R)) : R :=
  if String.eqb deg "total" then
    match weight with
    | None => INR (in_degree g v + out_degree g v)
    | Some w => sum (map (fun e => w (eid e)) (all_edges g v))
    end
  else if String.eqb deg "in" then
    match weight with
    | None => INR (in_degree g v)
    | Some w => sum (map (fun e => w (eid e)) (in_edges g v))
    end
  else
    match weight with
    | None => INR (out_degree g v)
    | Some w => sum (map (fun e => w (eid e)) (out_edges g v))
    end.

Section LaplacianLoop.
Context {M : Type} `{Store M}.

(** the loop of [laplacian] *)
Definition laplacian_loop (g : Graph) (index : PropertyMap nat)
    (deg : string) (normalized : bool) (weight : option (PropertyMap R))
    (m : M) : result M :=
  foldM (fun m v =>
    let d := _get_deg g v deg weight in
    m <- foldM (fun m e =>
           if negb normalized then
             let val := match weight with
                        | None => (-1)%R
                        | Some w => (- w (eid e))%R
                        end in
             iadd m (index v) (index (target e)) (Fin val)
           else
             let d2 := _get_deg g (target e) deg weight in
             let w := match weight with
                      | None => 1%R
                      | Some w => w (eid e)
                      end in
             iadd m (index v) (index (target e)) (neg_div_sqrt w (d * d2)))
           (out_edges g v) m ;;
    if negb normalized then
      setitem m (index v) (index v) (Fin d)
    else if Rlt_dec 0 d then
      setitem m (index v) (index v)
        (if Req_dec_T d 0 then Fin 0 else Fin 1)
    else Ok m)
    (vertices g) m.
End LaplacianLoop.

(** Modelled from the spec: the decorator [_limit_args] of the package,
    which is not part of the module.  It rejects a call whose named
    argument is not one of the listed values, before the decorated
    function runs. *)
Definition _limit_args {A} (allowed : list string) (arg : string)
    (call : result A) : result A :=
  if existsb (String.eqb arg) allowed then call else Raise InvalidArgument.

Definition laplacian (g : Graph) (deg : string) (normalized sparse : bool)
    (weight : option (PropertyMap R)) : result matrix :=
  _limit_args ["total"; "in"; "out"]%string deg
    (let index := get_index g in
     let N := num_vertices g in
     if sparse then
       m <- laplacian_loop g index deg normalized weight (lil_matrix N N) ;;
       Ok (Sparse (tocsr m))
     else
       m <- laplacian_loop g index deg normalized weight (zeros N N) ;;
       Ok (Dense m)).

Definition incidence (g : Graph) (sparse : bool) : result matrix :=
  let index := get_index g in
  let eindex := get_eindex g in
  let N := num_vertices g in
  let E := num_edges g in
  if sparse then
    m <- incidence_loop g index eindex (lil_matrix N E) ;;
    Ok (Sparse (tocsr m))
  else
    m <- incidence_loop g index eindex (zeros N E) ;;
    Ok (Dense m).

(** * Vocabulary of the properties *)

(** ** What a matrix store guarantees *)

Class Lawful (M : Type) `{Store M} : Prop := {
  law_new_ok : forall r c, rep_ok (new_matrix r c);
  law_new_shape : forall r c, shape (new_matrix r c) = (r, c);
  law_new_get : forall r c i j, in_shape (r, c) i j = true ->
    getitem (new_matrix r c) i j = Ok (Fin 0);
  law_get_out : forall m i j, in_shape (shape m) i j = false ->
    getitem m i j = Raise IndexError;
  law_get_in : forall m i j, in_shape (shape m) i j = true ->
    exists x, getitem m i j = Ok x;
  law_set_out : forall m i j x, in_shape (shape m) i j = false ->
    setitem m i j x = Raise IndexError;
  law_set_in : forall m i j x, rep_ok m -> in_shape (shape m) i j = true ->
    exists m', setitem m i j x = Ok m' /\ rep_ok m' /\ shape m' = shape m /\
      forall i' j', getitem m' i' j' =
        if (i' =? i) && (j' =? j) then Ok x else getitem m i' j'
}.

(** two stores that hold the same entries *)
Definition sim {M1 M2 : Type} `{Store M1} `{Store M2} (a : M1) (b : M2) : Prop :=
  rep_ok a /\ rep_ok b /\ shape a = shape b /\
  forall i j, getitem a i j = getitem b i j.

Definition rsim {M1 M2 : Type} `{Store M1} `{Store M2}
    (r1 : result M1) (r2 : result M2) : Prop :=
  match r1, r2 with
  | Ok a, Ok b => sim a b
  | Raise e1, Raise e2 => e1 = e2
  | _, _ => False
  end.

(** two results of a call are the same exception, or matrices of the
    same shape whose subscripts [[i, j]] give the same value (or both
    raise) for all [i] and [j] *)
Definition agree (r1 r2 : result matrix) : Prop :=
  match r1, r2 with
  | Ok a, Ok b => mshape a = mshape b /\ forall i j, item a i j = item b i j
  | Raise e1, Raise e2 => e1 = e2
  | _, _ => False
  end.

(** the entry at [(i, j)], zero outside the shape *)
Definition cell {M} `{Store M} (m : M) (i j : nat) : num :=
  match getitem m i j with
  | Ok x => x
  | Raise _ => Fin 0
  end.

(** the value a column [j] cell holds after [m[i, col e] += val e] for
    each [e] of [l], starting from [x] *)
Definition acc {E} (col : E -> nat) (val : E -> num) (l : list E)
    (j : nat) (x : num) : num :=
  fold_left (fun y e => if col e =? j then nadd y (val e) else y) l x.

(** a loop over vertices whose body rewrites row [idx v] only *)
Definition row_step {M : Type} `{Store M} {V : Type}
    (body : M -> V -> result M) (idx : V -> nat)
    (T : V -> nat -> num -> num) (s : nat * nat) (vs : list V) : Prop :=
  forall m v, In v vs -> rep_ok m -> shape m = s ->
  exists m', body m v = Ok m' /\ rep_ok m' /\ shape m' = s /\
    forall i j, cell m' i j =
      if i =? idx v then T v j (cell m i j) else cell m i j.

(** the edges from [u] to [v], as [u.out_edges()] yields them *)
Definition parallel (g : Graph) (u v : nat) : list Edge :=
  filter (fun e => target e =? v) (out_edges g u).

(** the value [laplacian] adds at [(index[v], index[e.target()])] for
    the out-edge [e] of [v] *)
Definition lap_term (g : Graph) (deg : string) (normalized : bool)
    (weight : option (PropertyMap R)) (v : nat) (e : Edge) : num :=
  if negb normalized then
    Fin (match weight with None => (-1)%R | Some w => (- w (eid e))%R end)
  else
    neg_div_sqrt (match weight with None => 1%R | Some w => w (eid e) end)
      (_get_deg g v deg weight * _get_deg g (target e) deg weight).

(** the value of column [j] in the row of [v] once the body of the
    loop of [laplacian] has run for [v], from the value [x] before *)
Definition lap_row (g : Graph) (deg : string) (normalized : bool)
    (weight : option (PropertyMap R)) (v j : nat) (x : num) : num :=
  let d := _get_deg g v deg weight in
  let y := acc (fun e => get_index g (target e))
               (lap_term g deg normalized weight v) (out_edges g v) j x in
  if j =? get_index g v then
    if negb normalized then Fin d
    else if Rlt_dec 0 d then (if Req_dec_T d 0 then Fin 0 else Fin 1)
    else y
  else y.

(** the same for [incidence] *)
Definition inc_row (g : Graph) (v j : nat) (x : num) : num :=
  if is_directed g then
    acc (fun e => get_eindex g (eid e)) (fun _ => Fin 1) (in_edges g v) j
      (acc (fun e => get_eindex g (eid e)) (fun _ => Fin (-1))
         (out_edges g v) j x)
  else
    acc (fun e => get_eindex g (eid e)) (fun _ => Fin 1) (out_edges g v) j x.

(** the outcome of a loop is a matrix or an IndexError *)
Definition fine {M : Type} `{Store M} (r : result M) : Prop :=
  match r with
  | Ok m => rep_ok m
  | Raise e => e = IndexError
  end.

(** [m[i, :].sum()] *)
Definition row_sum (m : matrix) (i : nat) : result num :=
  foldM (fun s j => x <- item m i j ;; Ok (nadd s x))
    (seq 0 (snd (mshape m))) (Fin 0).

(** [m[:, j].sum()] *)
Definition col_sum (m : matrix) (j : nat) : result num :=
  foldM (fun s i => x <- item m i j ;; Ok (nadd s x))
    (seq 0 (fst (mshape m))) (Fin 0).

(** the edges of the graph stored with source [u] and target [v] *)
Definition stored (g : Graph) (u v : nat) : list Edge :=
  filter (fun e => (source e =? u) && (target e =? v)) (edges g).

(** a sum of floats, from 0 *)
Definition nsum (l : list num) : num := fold_left nadd l (Fin 0).

(** the values [_limit_args] lets through *)
Definition valid_deg (deg : string) : Prop :=
  deg = "total"%string \/ deg = "in"%string \/ deg = "out"%string.

(** ** Example graphs *)

(** the directed path [0 -> 1 -> 2] *)
Definition path3 : Graph :=
  mkGraph true (None, false) [0; 1; 2] [mkEdge 0 1 0; mkEdge 1 2 1].

(** two parallel directed edges [0 -> 1] *)
Definition par2 : Graph :=
  mkGraph true (None, false) [0; 1] [mkEdge 0 1 0; mkEdge 0 1 1].

(** one directed edge [0 -> 1] *)
Definition arc : Graph :=
  mkGraph true (None, false) [0; 1] [mkEdge 0 1 0].

(** one undirected edge between [0] and [1] *)
Definition und1 : Graph :=
  mkGraph false (None, false) [0; 1] [mkEdge 0 1 0].

(** an undirected self-loop at [0] *)
Definition loop1 : Graph :=
  mkGraph false (None, false) [0] [mkEdge 0 0 0].

(** a directed self-loop at [0] *)
Definition dloop1 : Graph :=
  mkGraph true (None, false) [0] [mkEdge 0 0 0].

(** the path [0 -> 1 -> 2] seen through a filter that hides vertex [0] *)
Definition path3_filtered : Graph :=
  mkGraph true (Some (fun v => negb (v =? 0)), false) [1; 2] [mkEdge 1 2 1].


(** * Properties *)

Section ListUpdate.
Context {A : Type}.

Lemma length_update (f : A -> A) l : forall i,
  length (update i f l) = length l.
Proof.
  induction l as [|x t IH]; intros [|i]; simpl; auto.
Qed.

Lemma nth_update_eq (f : A -> A) d l : forall i,
  i < length l -> nth i (update i f l) d = f (nth i l d).
Proof.
  induction l as [|x t IH]; intros [|i] Hi; simpl in *; try lia; auto.
  apply IH; lia.
Qed.

Lemma nth_update_neq (f : A -> A) d l : forall i i',
  i' <> i -> nth i' (update i f l) d = nth i' l d.
Proof.
  induction l as [|x t IH]; intros [|i] [|i'] Hne; simpl; auto;
    try congruence.
Qed.

Lemma Forall_update (P : A -> Prop) (f : A -> A) l :
  (forall x, P x -> P (f x)) -> Forall P l ->
  forall i, Forall P (update i f l).
Proof.
  intros Hf HF; induction HF as [|x t Hx Ht IH]; intros [|i]; simpl;
    constructor; auto.
Qed.
End ListUpdate.

Lemma in_shape_true s i j :
  in_shape s i j = true <-> i < fst s /\ j < snd s.
Proof.
  unfold in_shape; rewrite andb_true_iff, !Nat.ltb_lt; tauto.
Qed.

(** *** the dense matrix *)

Lemma nth_repeat_any {A} (x : A) n i : nth i (repeat x n) x = x.
Proof.
  revert i; induction n as [|n IH]; intros [|i]; simpl; auto.
Qed.

#[export] Instance dense_lawful : Lawful dense.
Proof.
  constructor.
  - intros r c; split; simpl.
    + apply repeat_length.
    + apply Forall_forall; intros row Hin.
      apply repeat_spec in Hin; subst; apply repeat_length.
  - reflexivity.
  - intros r c i j Hin; simpl; unfold dense_get; simpl; rewrite Hin.
    apply in_shape_true in Hin; simpl in Hin.
    f_equal.
    replace (@nil num) with (repeat (Fin 0) 0) by reflexivity.
    rewrite (nth_indep _ (repeat (Fin 0) 0) (repeat (Fin 0) c))
      by (rewrite repeat_length; lia).
    rewrite nth_repeat_any; apply nth_repeat_any.
  - intros m i j Hout; simpl in *; unfold dense_get; now rewrite Hout.
  - intros m i j Hin; simpl in *; unfold dense_get; rewrite Hin; eauto.
  - intros m i j x Hout; simpl in *; unfold dense_set; now rewrite Hout.
  - intros m i j x [Hlen Hrows] Hin; simpl in *.
    unfold dense_set; rewrite Hin; eexists; split; [reflexivity|].
    pose proof Hin as Hr; apply in_shape_true in Hr; destruct Hr as [Hi Hj].
    split; [|split; [reflexivity|]].
    + split; simpl.
      * now rewrite length_update.
      * apply Forall_update; auto.
        intros row Hrow; now rewrite length_update.
    + intros i' j'; unfold dense_get; simpl.
      destruct (in_shape (d_shape m) i' j') eqn:Hin'.
      * destruct (Nat.eqb_spec i' i) as [->|Hne]; simpl.
        -- rewrite nth_update_eq by lia.
           destruct (Nat.eqb_spec j' j) as [->|Hnj].
           ++ rewrite nth_update_eq; auto.
              rewrite Forall_forall in Hrows.
              rewrite (Hrows (nth i (d_rows m) [])); auto.
              apply nth_In; lia.
           ++ now rewrite nth_update_neq.
        -- now rewrite nth_update_neq.
      * destruct ((i' =? i) && (j' =? j)) eqn:E; auto.
        apply andb_true_iff in E; destruct E as [E1 E2].
        apply Nat.eqb_eq in E1, E2; subst; congruence.
Qed.

(** *** the list-of-lists sparse matrix *)

Lemma row_get_insert j x row : forall j',
  row_get j' (row_insert j x row) = if j' =? j then x else row_get j' row.
Proof.
  induction row as [|[k y] t IH]; intros j'; simpl.
  - rewrite (Nat.eqb_sym j j'); reflexivity.
  - destruct (Nat.ltb_spec j k) as [Hlt|Hge]; simpl.
    + rewrite (Nat.eqb_sym j j'); reflexivity.
    + destruct (Nat.eqb_spec j k) as [->|Hne]; simpl.
      * rewrite (Nat.eqb_sym k j'); destruct (j' =? k); reflexivity.
      * rewrite IH.
        destruct (Nat.eqb_spec k j') as [->|Hkj]; auto.
        destruct (Nat.eqb_spec j' j); congruence.
Qed.

Lemma row_get_remove j row : forall j',
  row_get j' (row_remove j row) = if j' =? j then Fin 0 else row_get j' row.
Proof.
  unfold row_remove.
  induction row as [|[k y] t IH]; intros j'; simpl.
  - destruct (j' =? j); reflexivity.
  - destruct (Nat.eqb_spec k j) as [->|Hne]; simpl.
    + rewrite IH. rewrite (Nat.eqb_sym j j'); destruct (j' =? j); reflexivity.
    + rewrite IH.
      destruct (Nat.eqb_spec k j') as [->|Hkj]; auto.
      destruct (Nat.eqb_spec j' j); congruence.
Qed.

Lemma nonzero_false x : nonzero x = false -> x = Fin 0.
Proof.
  destruct x as [r|]; simpl; [|discriminate].
  destruct (Req_dec_T r 0); [congruence | discriminate].
Qed.

Lemma nth_repeat_nil {A} n i : nth i (repeat (@nil A) n) [] = [].
Proof. apply nth_repeat_any. Qed.

#[export] Instance lil_lawful : Lawful lil.
Proof.
  constructor.
  - intros r c; simpl; unfold lil_ok; simpl; apply repeat_length.
  - reflexivity.
  - intros r c i j Hin; simpl; unfold lil_get; simpl; rewrite Hin.
    now rewrite nth_repeat_nil.
  - intros m i j Hout; simpl in *; unfold lil_get; now rewrite Hout.
  - intros m i j Hin; simpl in *; unfold lil_get; rewrite Hin; eauto.
  - intros m i j x Hout; simpl in *; unfold lil_set; now rewrite Hout.
  - intros m i j x Hlen Hin; simpl in *; unfold lil_ok in *.
    unfold lil_set; rewrite Hin; eexists; split; [reflexivity|].
    pose proof Hin as Hr; apply in_shape_true in Hr; destruct Hr as [Hi Hj].
    split; [|split; [reflexivity|]].
    + simpl; now rewrite length_update.
    + intros i' j'; unfold lil_get; simpl.
      destruct (in_shape (l_shape m) i' j') eqn:Hin'.
      * destruct (Nat.eqb_spec i' i) as [->|Hne]; simpl.
        -- rewrite nth_update_eq by lia.
           destruct (nonzero x) eqn:Hx.
           ++ rewrite row_get_insert; destruct (j' =? j); reflexivity.
           ++ rewrite row_get_remove; apply nonzero_false in Hx; subst.
              destruct (j' =? j); reflexivity.
        -- now rewrite nth_update_neq.
      * destruct ((i' =? i) && (j' =? j)) eqn:E; auto.
        apply andb_true_iff in E; destruct E as [E1 E2].
        apply Nat.eqb_eq in E1, E2; subst; congruence.
Qed.

(** *** conversion to compressed rows keeps every entry *)

Lemma row_ptr_head {A} (rows : list (list A)) k d :
  nth 0 (row_ptr k rows) d = k.
Proof. destruct rows; reflexivity. Qed.

Lemma csr_row {A B} (f : A -> B) (rows : list (list A)) :
  forall i k (pre : list B), length pre = k -> i < length rows ->
  slice (nth i (row_ptr k rows) 0) (nth (S i) (row_ptr k rows) 0)
        (pre ++ concat (map (map f) rows)) = map f (nth i rows []).
Proof.
  induction rows as [|row t IH]; intros i k pre Hk Hi; simpl in Hi; [lia|].
  destruct i as [|i].
  - cbn [row_ptr nth]. rewrite row_ptr_head. unfold slice.
    replace (k + length row - k) with (length row) by lia.
    rewrite skipn_app, <- Hk, skipn_all, Nat.sub_diag; simpl.
    rewrite firstn_app, length_map, Nat.sub_diag; simpl.
    rewrite app_nil_r, <- (length_map f), firstn_all; reflexivity.
  - cbn [row_ptr]. change (nth (S (S i)) (k :: ?l) 0) with (nth (S i) l 0).
    change (nth (S i) (k :: ?l) 0) with (nth i l 0).
    cbn [map concat nth]. rewrite app_assoc.
    apply IH; [|lia]. rewrite length_app, length_map; lia.
Qed.

Lemma combine_fst_snd {A B} (l : list (A * B)) :
  combine (map fst l) (map snd l) = l.
Proof. induction l as [|[a b] t IH]; simpl; congruence. Qed.

Lemma csr_get_tocsr (m : lil) i j :
  lil_ok m -> csr_get (tocsr m) i j = lil_get m i j.
Proof.
  unfold lil_ok, csr_get, lil_get, tocsr; simpl; intros Hlen.
  destruct (in_shape (l_shape m) i j) eqn:Hin; auto.
  apply in_shape_true in Hin; destruct Hin as [Hi _].
  rewrite <- Hlen in Hi. f_equal.
  pose proof (csr_row fst (l_rows m) i 0 [] eq_refl Hi) as E1.
  pose proof (csr_row snd (l_rows m) i 0 [] eq_refl Hi) as E2.
  simpl in E1, E2; rewrite E1, E2.
  now rewrite combine_fst_snd.
Qed.

(** ** Two stores filled by the same loop hold the same entries *)

Section Simulation.
Context {M1 M2 : Type} `{Lawful M1} `{Lawful M2}.


Lemma sim_new r c : sim (new_matrix r c : M1) (new_matrix r c : M2).
Proof.
  repeat split; try apply law_new_ok.
  - now rewrite !law_new_shape.
  - intros i j. destruct (in_shape (r, c) i j) eqn:Hin.
    + now rewrite !law_new_get.
    + rewrite !law_get_out; auto; now rewrite law_new_shape.
Qed.

Lemma sim_setitem (a : M1) (b : M2) i j x :
  sim a b -> rsim (setitem a i j x) (setitem b i j x).
Proof.
  intros (Ha & Hb & Hs & Hg).
  destruct (in_shape (shape a) i j) eqn:Hin.
  - destruct (law_set_in a i j x Ha Hin) as (a' & Ea & Ha' & Sa & Ga).
    rewrite Hs in Hin.
    destruct (law_set_in b i j x Hb Hin) as (b' & Eb & Hb' & Sb & Gb).
    rewrite Ea, Eb; simpl. repeat split; auto; try congruence.
    intros i' j'; rewrite Ga, Gb, Hg; reflexivity.
  - rewrite (law_set_out a i j x Hin). rewrite Hs in Hin.
    rewrite (law_set_out b i j x Hin). reflexivity.
Qed.

Lemma sim_bind (r1 : result M1) (r2 : result M2)
    (k1 : M1 -> result M1) (k2 : M2 -> result M2) :
  rsim r1 r2 -> (forall (a : M1) (b : M2), sim a b -> rsim (k1 a) (k2 b)) ->
  rsim (bind r1 k1) (bind r2 k2).
Proof.
  destruct r1, r2; simpl; intros Hr Hk; auto; contradiction.
Qed.

Lemma sim_iadd (a : M1) (b : M2) i j x : sim a b -> rsim (iadd a i j x) (iadd b i j x).
Proof.
  intros Hs. unfold iadd.
  destruct Hs as (Ha & Hb & Hs & Hg). rewrite <- Hg.
  destruct (getitem a i j) as [y|e]; simpl; [|reflexivity].
  apply sim_setitem; repeat split; auto.
Qed.

Lemma sim_foldM {B} (f1 : M1 -> B -> result M1) (f2 : M2 -> B -> result M2) l :
  (forall (a : M1) (b : M2) x, sim a b -> rsim (f1 a x) (f2 b x)) ->
  forall (a : M1) (b : M2), sim a b -> rsim (foldM f1 l a) (foldM f2 l b).
Proof.
  intros Hf; induction l as [|x t IH]; intros a b Hs; [exact Hs|].
  cbn [foldM].
  apply (sim_bind (f1 a x) (f2 b x) (foldM f1 t) (foldM f2 t)); auto.
Qed.

Lemma sim_adjacency_loop g index weight (a : M1) (b : M2) :
  sim a b ->
  rsim (adjacency_loop g index weight a) (adjacency_loop g index weight b).
Proof.
  intros Hs; unfold adjacency_loop.
  apply sim_foldM; auto; intros a' b' v Hs'.
  apply sim_foldM; auto; intros a'' b'' e Hs''.
  now apply sim_iadd.
Qed.

Lemma sim_laplacian_loop g index deg normalized weight (a : M1) (b : M2) :
  sim a b ->
  rsim (laplacian_loop g index deg normalized weight a)
       (laplacian_loop g index deg normalized weight b).
Proof.
  intros Hs; unfold laplacian_loop.
  apply sim_foldM; auto; intros a' b' v Hs'.
  apply sim_bind.
  - apply sim_foldM; auto; intros a'' b'' e Hs''.
    destruct normalized; simpl; now apply sim_iadd.
  - intros a'' b'' Hs''. destruct normalized; simpl.
    + destruct (Rlt_dec 0 (_get_deg g v deg weight));
        [now apply sim_setitem | exact Hs''].
    + now apply sim_setitem.
Qed.

Lemma sim_incidence_loop g index eindex (a : M1) (b : M2) :
  sim a b ->
  rsim (incidence_loop g index eindex a) (incidence_loop g index eindex b).
Proof.
  intros Hs; unfold incidence_loop.
  apply sim_foldM; auto; intros a' b' v Hs'.
  destruct (is_directed g).
  - apply sim_bind.
    + apply sim_foldM; auto; intros; now apply sim_iadd.
    + intros; apply sim_foldM; auto; intros; now apply sim_iadd.
  - apply sim_foldM; auto; intros; now apply sim_iadd.
Qed.
End Simulation.


Lemma agree_finish (r1 : result lil) (r2 : result dense) :
  rsim r1 r2 ->
  agree (m <- r1 ;; Ok (Sparse (tocsr m))) (m <- r2 ;; Ok (Dense m)).
Proof.
  destruct r1 as [l|e1], r2 as [d|e2]; simpl; auto.
  intros (Hl & Hd & Hs & Hg); split; auto.
  intros i j; rewrite csr_get_tocsr by exact Hl. apply Hg.
Qed.

(** C7. For every graph and every combination of the other arguments,
    [sparse=True] and [sparse=False] give the same outcome in
    [adjacency], [laplacian] and [incidence]: either the same
    exception, or two matrices of the same shape with
    [dense[i, j] == sparse[i, j]] for all [i], [j]. *)
Theorem sparse_dense_agree (g : Graph) :
  (forall weight, agree (adjacency g true weight) (adjacency g false weight))
  /\ (forall deg normalized weight,
        agree (laplacian g deg normalized true weight)
              (laplacian g deg normalized false weight))
  /\ agree (incidence g true) (incidence g false).
Proof.
  split; [|split].
  - intros weight; unfold adjacency.
    apply agree_finish, sim_adjacency_loop.
    exact (sim_new (M1:=lil) (M2:=dense) _ _).
  - intros deg normalized weight; unfold laplacian, _limit_args.
    destruct (existsb (String.eqb deg) ["total"; "in"; "out"]%string);
      [|reflexivity].
    apply agree_finish, sim_laplacian_loop.
    exact (sim_new (M1:=lil) (M2:=dense) _ _).
  - unfold incidence.
    apply agree_finish, sim_incidence_loop.
    exact (sim_new (M1:=lil) (M2:=dense) _ _).
Qed.

(** ** Entries written by a loop *)


Section Entries.
Context {M : Type} `{Lawful M}.

Lemma cell_set m i j x m' :
  rep_ok m -> setitem m i j x = Ok m' ->
  rep_ok m' /\ shape m' = shape m /\
  forall i' j', cell m' i' j' =
    if (i' =? i) && (j' =? j) then x else cell m i' j'.
Proof.
  intros Hm E. destruct (in_shape (shape m) i j) eqn:Hin.
  - destruct (law_set_in m i j x Hm Hin) as (m2 & E2 & H2 & S2 & G2).
    rewrite E in E2; inversion E2; subst m2.
    repeat split; auto. intros i' j'; unfold cell; rewrite G2.
    destruct ((i' =? i) && (j' =? j)); reflexivity.
  - rewrite (law_set_out m i j x Hin) in E; discriminate.
Qed.

Lemma setitem_ok m i j x :
  rep_ok m -> in_shape (shape m) i j = true ->
  exists m', setitem m i j x = Ok m'.
Proof.
  intros Hm Hin. destruct (law_set_in m i j x Hm Hin) as (m' & E & _); eauto.
Qed.

Lemma iadd_spec m i j x :
  rep_ok m -> in_shape (shape m) i j = true ->
  exists m', iadd m i j x = Ok m' /\ rep_ok m' /\ shape m' = shape m /\
    forall i' j', cell m' i' j' =
      if (i' =? i) && (j' =? j) then nadd (cell m i j) x else cell m i' j'.
Proof.
  intros Hm Hin. unfold iadd, cell at 2.
  destruct (law_get_in m i j Hin) as (y & Ey); rewrite Ey; simpl.
  destruct (setitem_ok m i j (nadd y x) Hm Hin) as (m' & E).
  exists m'; split; auto. now apply cell_set.
Qed.

(** the inner loops: additions into one row *)
Lemma row_loop {E} (col : E -> nat) (val : E -> num) i (l : list E) :
  forall m, rep_ok m -> i < fst (shape m) ->
  (forall e, In e l -> col e < snd (shape m)) ->
  exists m', foldM (fun m e => iadd m i (col e) (val e)) l m = Ok m' /\
    rep_ok m' /\ shape m' = shape m /\
    forall i' j, cell m' i' j =
      if i' =? i then acc col val l j (cell m i' j) else cell m i' j.
Proof.
  induction l as [|e t IH]; intros m Hm Hi Hc; simpl.
  - exists m; repeat split; auto. intros i' j; destruct (i' =? i); auto.
  - assert (Hin : in_shape (shape m) i (col e) = true)
      by (apply in_shape_true; split; auto; apply Hc; now left).
    destruct (iadd_spec m i (col e) (val e) Hm Hin) as (m1 & E1 & H1 & S1 & G1).
    rewrite E1; simpl.
    destruct (IH m1 H1) as (m2 & E2 & H2 & S2 & G2).
    { now rewrite S1. }
    { intros e' He'; rewrite S1; apply Hc; now right. }
    exists m2; repeat split; auto; try congruence.
    intros i' j; rewrite G2, G1.
    destruct (Nat.eqb_spec i' i) as [->|Hne]; simpl; auto.
    rewrite (Nat.eqb_sym j (col e)).
    destruct (Nat.eqb_spec (col e) j) as [->|]; reflexivity.
Qed.


Lemma rows_loop {V} (body : M -> V -> result M) idx T s (vs : list V) :
  row_step body idx T s vs -> NoDup (map idx vs) ->
  forall m, rep_ok m -> shape m = s ->
  exists m', foldM body vs m = Ok m' /\ rep_ok m' /\ shape m' = s /\
    (forall v j, In v vs -> cell m' (idx v) j = T v j (cell m (idx v) j)) /\
    (forall i j, ~ In i (map idx vs) -> cell m' i j = cell m i j).
Proof.
  induction vs as [|v t IH]; intros Hstep Hnd m Hm Hs; simpl.
  - exists m; repeat split; auto. intros v j [].
  - destruct (Hstep m v (or_introl eq_refl) Hm Hs)
      as (m1 & E1 & H1 & S1 & G1).
    rewrite E1; simpl. inversion Hnd as [|? ? Hnotin Hnd']; subst.
    destruct (IH (fun m u Hu => Hstep m u (or_intror Hu)) Hnd' m1 H1 S1)
      as (m2 & E2 & H2 & S2 & Gin & Gout).
    exists m2; repeat split; auto.
    + intros u j [<-|Hu].
      * rewrite Gout by exact Hnotin. rewrite G1, Nat.eqb_refl; reflexivity.
      * rewrite (Gin u j Hu), G1.
        destruct (Nat.eqb_spec (idx u) (idx v)) as [E|]; auto.
        exfalso; apply Hnotin; rewrite <- E; now apply in_map.
    + intros i j Hi; simpl in Hi.
      rewrite Gout by tauto. rewrite G1.
      destruct (Nat.eqb_spec i (idx v)); auto. exfalso; apply Hi; auto.
Qed.
End Entries.

(** ** The index maps *)

Lemma enum_untouched {A} (key : A -> nat) (l : list A) k :
  ~ In k (map key l) ->
  forall s (pm : PropertyMap nat),
  fold_left (fun pm ia => pm_set pm (key (snd ia)) (fst ia))
    (combine (seq s (length l)) l) pm k = pm k.
Proof.
  induction l as [|a t IH]; intros Hk s pm; simpl; auto.
  rewrite IH by (intros Hin; apply Hk; now right).
  unfold pm_set. destruct (Nat.eqb_spec k (key a)); auto.
  exfalso; apply Hk; left; auto.
Qed.

Lemma enum_index {A} (key : A -> nat) (l : list A) :
  NoDup (map key l) ->
  forall s (pm : PropertyMap nat),
  map (fun a => fold_left (fun pm ia => pm_set pm (key (snd ia)) (fst ia))
                  (combine (seq s (length l)) l) pm (key a)) l
  = seq s (length l).
Proof.
  induction l as [|a t IH]; intros Hnd s pm; simpl; auto.
  inversion Hnd as [|? ? Hnotin Hnd']; subst. f_equal.
  - rewrite enum_untouched by exact Hnotin.
    unfold pm_set; now rewrite Nat.eqb_refl.
  - apply IH; auto.
Qed.

Lemma index_enum g :
  graph_ok g -> map (get_index g) (vertices g) = seq 0 (num_vertices g).
Proof.
  intros [Hnd Hdense _ _]. unfold get_index, num_vertices.
  destruct (fst (get_vertex_filter g)) as [f|].
  - apply (enum_index (fun v => v)). now rewrite map_id.
  - unfold vertex_index. rewrite map_id. now apply Hdense.
Qed.

Lemma eindex_enum g :
  graph_ok g ->
  map (fun e => get_eindex g (eid e)) (edges g) = seq 0 (num_edges g).
Proof.
  intros Hg. apply (enum_index eid), (ok_eids g Hg).
Qed.

Lemma index_lt g v :
  graph_ok g -> In v (vertices g) -> get_index g v < num_vertices g.
Proof.
  intros Hg Hv. apply (in_map (get_index g)) in Hv.
  rewrite (index_enum g Hg) in Hv. apply in_seq in Hv; lia.
Qed.

Lemma index_nodup g : graph_ok g -> NoDup (map (get_index g) (vertices g)).
Proof. intros Hg; rewrite (index_enum g Hg); apply seq_NoDup. Qed.

Lemma NoDup_map_inj {A B} (f : A -> B) l x y :
  NoDup (map f l) -> In x l -> In y l -> f x = f y -> x = y.
Proof.
  induction l as [|a t IH]; simpl; intros Hnd Hx Hy E; [contradiction|].
  inversion Hnd as [|? ? Hnotin Hnd']; subst.
  destruct Hx as [->|Hx], Hy as [->|Hy]; auto.
  - exfalso; apply Hnotin; rewrite E; now apply in_map.
  - exfalso; apply Hnotin; rewrite <- E; now apply in_map.
Qed.

Lemma index_inj g u v :
  graph_ok g -> In u (vertices g) -> In v (vertices g) ->
  get_index g u = get_index g v -> u = v.
Proof. intros Hg; apply NoDup_map_inj, (index_nodup g Hg). Qed.

Lemma eindex_lt g e :
  graph_ok g -> In e (edges g) -> get_eindex g (eid e) < num_edges g.
Proof.
  intros Hg He. apply (in_map (fun e => get_eindex g (eid e))) in He.
  rewrite (eindex_enum g Hg) in He. apply in_seq in He; lia.
Qed.

(** ** Traversals of a well-formed graph *)

Lemma out_edges_spec g v e :
  graph_ok g -> In e (out_edges g v) ->
  source e = v /\ In (target e) (vertices g) /\
  exists e0, In e0 (edges g) /\ eid e0 = eid e.
Proof.
  intros Hg. unfold out_edges.
  assert (Hf : In e (filter (fun e => source e =? v) (edges g)) ->
               (source e = v /\ In (target e) (vertices g) /\
                exists e0, In e0 (edges g) /\ eid e0 = eid e)).
  { intros Hin. apply filter_In in Hin; destruct Hin as [Hin Hs].
    apply Nat.eqb_eq in Hs. destruct (ok_ends g Hg e Hin) as [_ Ht]. eauto. }
  destruct (is_directed g); [exact Hf|].
  intros Hin; apply in_app_or in Hin; destruct Hin as [Hin|Hin];
    [exact (Hf Hin)|].
  apply in_map_iff in Hin; destruct Hin as (e0 & <- & Hin).
  apply filter_In in Hin; destruct Hin as [Hin Ht].
  apply Nat.eqb_eq in Ht. destruct (ok_ends g Hg e0 Hin) as [Hs _].
  simpl; eauto.
Qed.

Lemma in_edges_spec g v e :
  graph_ok g -> In e (in_edges g v) ->
  target e = v /\ In (source e) (vertices g) /\ In e (edges g).
Proof.
  intros Hg. unfold in_edges. destruct (is_directed g); [|intros []].
  intros Hin. apply filter_In in Hin; destruct Hin as [Hin Ht].
  apply Nat.eqb_eq in Ht. destruct (ok_ends g Hg e Hin) as [Hs _]. auto.
Qed.

(** ** From the loop to the returned matrix *)

Lemma loop_to_matrix
    (loop : forall M : Type, Store M -> M -> result M)
    (r c : nat) (Q : nat -> nat -> num -> Prop) (sparse : bool) :
  (forall (M : Type) (S : Store M), @Lawful M S ->
     exists m', loop M S (new_matrix r c) = Ok m' /\ rep_ok m' /\
       shape m' = (r, c) /\ forall i j, Q i j (cell m' i j)) ->
  exists mx,
    (if sparse
     then m <- loop lil lil_store (lil_matrix r c) ;; Ok (Sparse (tocsr m))
     else m <- loop dense dense_store (zeros r c) ;; Ok (Dense m)) = Ok mx /\
    mshape mx = (r, c) /\
    forall i j, in_shape (r, c) i j = true ->
      exists x, item mx i j = Ok x /\ Q i j x.
Proof.
  intros Hloop. destruct sparse.
  - destruct (Hloop lil lil_store lil_lawful) as (m & E & Hm & Hs & Hq).
    simpl in E; rewrite E; simpl. eexists; split; [reflexivity|].
    split; [exact Hs|]. intros i j Hin. simpl.
    rewrite csr_get_tocsr by exact Hm.
    specialize (Hq i j). unfold cell in Hq; simpl in Hq.
    destruct (law_get_in m i j) as (x & Ex); [now rewrite Hs|].
    simpl in Ex; rewrite Ex in *; eauto.
  - destruct (Hloop dense dense_store dense_lawful) as (m & E & Hm & Hs & Hq).
    simpl in E; rewrite E; simpl. eexists; split; [reflexivity|].
    split; [exact Hs|]. intros i j Hin. simpl.
    specialize (Hq i j). unfold cell in Hq; simpl in Hq.
    destruct (law_get_in m i j) as (x & Ex); [now rewrite Hs|].
    simpl in Ex; rewrite Ex in *; eauto.
Qed.

Lemma new_cell {M} `{Lawful M} r c i j :
  cell (new_matrix r c) i j = Fin 0.
Proof.
  unfold cell. destruct (in_shape (r, c) i j) eqn:Hin.
  - now rewrite law_new_get.
  - rewrite law_get_out; auto. now rewrite law_new_shape.
Qed.

(** ** Sums *)

Lemma fold_Rplus_shift l : forall x,
  fold_left Rplus l x = (x + fold_left Rplus l 0)%R.
Proof.
  induction l as [|a t IH]; intros x; simpl; [lra|].
  rewrite (IH (x + a)%R), (IH (0 + a)%R); lra.
Qed.

Lemma sum_cons a l : sum (a :: l) = (a + sum l)%R.
Proof. unfold sum; simpl. rewrite fold_Rplus_shift; lra. Qed.

Lemma sum_app l1 l2 : sum (l1 ++ l2) = (sum l1 + sum l2)%R.
Proof.
  induction l1 as [|a t IH]; simpl.
  - unfold sum at 2; simpl; lra.
  - rewrite !sum_cons, IH; lra.
Qed.

Lemma sum_ones {A} (l : list A) : sum (map (fun _ => 1%R) l) = INR (length l).
Proof.
  induction l as [|a t IH]; [reflexivity|].
  cbn [map length]; rewrite sum_cons, IH, S_INR; lra.
Qed.

Lemma acc_fin {E} (col : E -> nat) (w : E -> R) l j : forall x,
  acc col (fun e => Fin (w e)) l j (Fin x)
  = Fin (x + sum (map w (filter (fun e => col e =? j) l))).
Proof.
  unfold acc. induction l as [|e t IH]; intros x; simpl.
  - unfold sum; simpl; f_equal; lra.
  - destruct (col e =? j); simpl.
    + rewrite IH, sum_cons; f_equal; lra.
    + apply IH.
Qed.

(** ** adjacency *)


Lemma filter_index_target g u v :
  graph_ok g -> In v (vertices g) ->
  filter (fun e => get_index g (target e) =? get_index g v) (out_edges g u)
  = parallel g u v.
Proof.
  intros Hg Hv. apply filter_ext_in; intros e He.
  destruct (out_edges_spec g u e Hg He) as (_ & Ht & _).
  destruct (Nat.eqb_spec (target e) v) as [->|Hne].
  - apply Nat.eqb_refl.
  - apply Nat.eqb_neq; intros E; apply Hne.
    now apply (index_inj g).
Qed.

Section AdjacencyLoop.
Context {M : Type} `{Lawful M}.

Lemma adjacency_loop_spec g weight :
  graph_ok g ->
  exists m',
    adjacency_loop g (get_index g) weight
      (new_matrix (num_vertices g) (num_vertices g)) = Ok m' /\
    rep_ok m' /\ shape m' = (num_vertices g, num_vertices g) /\
    forall i j u v, In u (vertices g) -> In v (vertices g) ->
      i = get_index g u -> j = get_index g v ->
      cell m' i j = Fin (sum (map (weight_of weight) (parallel g u v))).
Proof.
  intros Hg. set (N := num_vertices g).
  set (T := fun (v : nat) (j : nat) (x : num) =>
    acc (fun e => get_index g (target e))
        (fun e => Fin (weight_of weight e)) (out_edges g v) j x).
  destruct (rows_loop
    (fun m v => foldM (fun m e =>
       iadd m (get_index g v) (get_index g (target e))
            (Fin (weight_of weight e))) (out_edges g v) m)
    (get_index g) T (N, N) (vertices g)) with (m := new_matrix N N)
    as (m' & E & Hm & Hs & Gin & _).
  - intros m v Hv Hm Hs.
    destruct (row_loop (fun e => get_index g (target e))
                (fun e => Fin (weight_of weight e)) (get_index g v)
                (out_edges g v) m Hm) as (m' & E & Hm' & Hs' & G).
    + rewrite Hs; simpl; now apply index_lt.
    + intros e He; rewrite Hs; simpl; apply index_lt; auto.
      now destruct (out_edges_spec g v e Hg He) as (_ & Ht & _).
    + exists m'; repeat split; auto; congruence.
  - now apply index_nodup.
  - apply law_new_ok.
  - apply law_new_shape.
  - exists m'; repeat split; auto.
    intros i j u v Hu Hv -> ->. rewrite (Gin u _ Hu); unfold T.
    rewrite new_cell, acc_fin, filter_index_target by auto.
    f_equal; lra.
Qed.
End AdjacencyLoop.

(** the entry of [adjacency] for a pair of vertices *)
Lemma adjacency_entries g sparse weight u v :
  graph_ok g -> In u (vertices g) -> In v (vertices g) ->
  exists m,
    adjacency g sparse weight = Ok m /\
    mshape m = (num_vertices g, num_vertices g) /\
    item m (get_index g u) (get_index g v)
      = Ok (Fin (sum (map (weight_of weight) (parallel g u v)))) /\
    (weight = None ->
     item m (get_index g u) (get_index g v)
       = Ok (Fin (INR (length (parallel g u v))))).
Proof.
  intros Hg Hu Hv. unfold adjacency.
  destruct (loop_to_matrix
    (fun M S => adjacency_loop g (get_index g) weight)
    (num_vertices g) (num_vertices g)
    (fun i j x => forall u v, In u (vertices g) -> In v (vertices g) ->
       i = get_index g u -> j = get_index g v ->
       x = Fin (sum (map (weight_of weight) (parallel g u v)))) sparse)
    as (mx & E & Hshape & Hq).
  - intros M S L. destruct (adjacency_loop_spec g weight Hg)
      as (m' & E & Hm & Hs & G). exists m'; repeat split; auto.
  - exists mx; split; [exact E|]. split; [exact Hshape|].
    destruct (Hq (get_index g u) (get_index g v)) as (x & Ex & Hx).
    { apply in_shape_true; simpl; split; now apply index_lt. }
    rewrite (Hx u v Hu Hv eq_refl eq_refl) in Ex. split; [exact Ex|].
    intros ->. rewrite Ex. simpl. now rewrite sum_ones.
Qed.



(** ** The example graphs are well formed *)

Ltac graph_ok_tac :=
  constructor; simpl;
  [ repeat constructor; simpl; intuition lia
  | try reflexivity; try discriminate
  | intros e He; repeat (destruct He as [<-|He]; [simpl; intuition lia|]);
    contradiction
  | repeat constructor; simpl; intuition lia ].

Lemma path3_ok : graph_ok path3.
Proof. graph_ok_tac. Qed.

Lemma par2_ok : graph_ok par2.
Proof. graph_ok_tac. Qed.

Lemma arc_ok : graph_ok arc.
Proof. graph_ok_tac. Qed.

Lemma und1_ok : graph_ok und1.
Proof. graph_ok_tac. Qed.

Lemma loop1_ok : graph_ok loop1.
Proof. graph_ok_tac. Qed.

Lemma dloop1_ok : graph_ok dloop1.
Proof. graph_ok_tac. Qed.

Lemma path3_filtered_ok : graph_ok path3_filtered.
Proof. graph_ok_tac. Qed.


(** ** The directed path [0 -> 1 -> 2], unweighted

    Each entry is shown as the code accumulates it from 0. *)

Example path3_adjacency :
  adjacency path3 false None
  = Ok (Dense (mkDense (3, 3)
          [[Fin 0; Fin (0 + 1); Fin 0];
           [Fin 0; Fin 0; Fin (0 + 1)];
           [Fin 0; Fin 0; Fin 0]])).
Proof. reflexivity. Qed.

Example path3_laplacian_out :
  laplacian path3 "out" false false None
  = Ok (Dense (mkDense (3, 3)
          [[Fin 1; Fin (0 + -1); Fin 0];
           [Fin 0; Fin 1; Fin (0 + -1)];
           [Fin 0; Fin 0; Fin 0]])).
Proof. reflexivity. Qed.

Example path3_incidence :
  incidence path3 false
  = Ok (Dense (mkDense (3, 2)
          [[Fin (0 + -1); Fin 0];
           [Fin (0 + 1); Fin (0 + -1)];
           [Fin 0; Fin (0 + 1)]])).
Proof. reflexivity. Qed.


(** the path [0 -> 1 -> 2] with vertex [0] filtered out: the remaining
    vertices [1] and [2] get the indices 0 and 1 *)
Lemma adjacency_filtered :
  exists m, adjacency path3_filtered true None = Ok m /\
            mshape m = (2, 2) /\ item m 0 1 = Ok (Fin 1).
Proof.
  destruct (adjacency_entries path3_filtered true None 1 2 path3_filtered_ok)
    as (m & E & Hshape & _ & Hn); simpl; auto.
  exists m; split; [exact E|]. split; [exact Hshape | exact (Hn eq_refl)].
Qed.

(** ** laplacian *)

Lemma foldM_ext {A B} (f f' : A -> B -> result A) l :
  (forall a x, f a x = f' a x) -> forall a, foldM f l a = foldM f' l a.
Proof.
  intros Hf; induction l as [|x t IH]; intros a; simpl; auto.
  rewrite Hf. destruct (f' a x); simpl; auto.
Qed.

Section LaplacianEntries.
Context {M : Type} `{Lawful M}.

Lemma laplacian_body_spec g deg normalized weight :
  graph_ok g ->
  row_step
    (fun (m : M) v =>
       let d := _get_deg g v deg weight in
       m <- foldM (fun m e =>
              if negb normalized then
                let val := match weight with
                           | None => (-1)%R
                           | Some w => (- w (eid e))%R
                           end in
                iadd m (get_index g v) (get_index g (target e)) (Fin val)
              else
                let d2 := _get_deg g (target e) deg weight in
                let w := match weight with
                         | None => 1%R
                         | Some w => w (eid e)
                         end in
                iadd m (get_index g v) (get_index g (target e))
                  (neg_div_sqrt w (d * d2)))
              (out_edges g v) m ;;
       if negb normalized then
         setitem m (get_index g v) (get_index g v) (Fin d)
       else if Rlt_dec 0 d then
         setitem m (get_index g v) (get_index g v)
           (if Req_dec_T d 0 then Fin 0 else Fin 1)
       else Ok m)
    (get_index g) (lap_row g deg normalized weight)
    (num_vertices g, num_vertices g) (vertices g).
Proof.
  intros Hg m v Hv Hm Hs. cbv zeta.
  rewrite foldM_ext with
    (f' := fun m e => iadd m (get_index g v) (get_index g (target e))
                        (lap_term g deg normalized weight v e))
    by (intros a e; unfold lap_term; destruct normalized; reflexivity).
  assert (Hi : get_index g v < num_vertices g) by now apply index_lt.
  destruct (row_loop (fun e => get_index g (target e))
              (lap_term g deg normalized weight v) (get_index g v)
              (out_edges g v) m Hm) as (m1 & E1 & H1 & S1 & G1).
  { now rewrite Hs. }
  { intros e He; rewrite Hs; simpl; apply index_lt; auto.
    now destruct (out_edges_spec g v e Hg He) as (_ & Ht & _). }
  rewrite E1; simpl bind.
  assert (Hin : in_shape (shape m1) (get_index g v) (get_index g v) = true)
    by (rewrite S1, Hs; apply in_shape_true; simpl; auto).
  assert (Hset : forall x, exists m',
            setitem m1 (get_index g v) (get_index g v) x = Ok m' /\
            rep_ok m' /\ shape m' = (num_vertices g, num_vertices g) /\
            forall i j, cell m' i j =
              if i =? get_index g v
              then (if j =? get_index g v then x
                    else acc (fun e => get_index g (target e))
                           (lap_term g deg normalized weight v)
                           (out_edges g v) j (cell m i j))
              else cell m i j).
  { intros x. destruct (setitem_ok m1 _ _ x H1 Hin) as (m2 & E2).
    destruct (cell_set m1 _ _ x m2 H1 E2) as (H2 & S2 & G2).
    exists m2; repeat split; auto; try congruence.
    intros i j; rewrite G2, G1.
    destruct (i =? get_index g v), (j =? get_index g v); reflexivity. }
  unfold lap_row.
  destruct normalized; simpl negb; cbv iota.
  - destruct (Rlt_dec 0 (_get_deg g v deg weight)).
    + destruct (Hset (if Req_dec_T (_get_deg g v deg weight) 0
                      then Fin 0 else Fin 1)) as (m2 & E2 & H2 & S2 & G2).
      exists m2; repeat split; auto.
    + exists m1; repeat split; auto; try congruence.
      intros i j; rewrite G1.
      destruct (i =? get_index g v), (j =? get_index g v); reflexivity.
  - destruct (Hset (Fin (_get_deg g v deg weight)))
      as (m2 & E2 & H2 & S2 & G2).
    exists m2; repeat split; auto.
Qed.

Lemma laplacian_loop_spec g deg normalized weight :
  graph_ok g ->
  exists m',
    laplacian_loop g (get_index g) deg normalized weight
      (new_matrix (num_vertices g) (num_vertices g)) = Ok m' /\
    rep_ok m' /\ shape m' = (num_vertices g, num_vertices g) /\
    forall i j v, In v (vertices g) -> i = get_index g v ->
      cell m' i j = lap_row g deg normalized weight v j (Fin 0).
Proof.
  intros Hg. unfold laplacian_loop.
  destruct (rows_loop _ _ _ _ _
              (laplacian_body_spec g deg normalized weight Hg)
              (index_nodup g Hg)
              (new_matrix (num_vertices g) (num_vertices g))
              (law_new_ok _ _) (law_new_shape _ _))
    as (m' & E & Hm & Hs & Gin & _).
  exists m'; repeat split; auto.
  intros i j v Hv ->. rewrite (Gin v j Hv), new_cell; reflexivity.
Qed.
End LaplacianEntries.

Lemma valid_deg_limit {A} deg (call : result A) :
  valid_deg deg -> _limit_args ["total"; "in"; "out"]%string deg call = call.
Proof. intros [-> | [-> | ->]]; reflexivity. Qed.

(** every row of the Laplacian of a well-formed graph *)
Lemma laplacian_rows g deg normalized sparse weight :
  graph_ok g -> valid_deg deg ->
  exists m,
    laplacian g deg normalized sparse weight = Ok m /\
    mshape m = (num_vertices g, num_vertices g) /\
    forall v j, In v (vertices g) -> j < num_vertices g ->
      item m (get_index g v) j
        = Ok (lap_row g deg normalized weight v j (Fin 0)).
Proof.
  intros Hg Hdeg. unfold laplacian. rewrite valid_deg_limit by exact Hdeg.
  destruct (loop_to_matrix
    (fun M S => laplacian_loop g (get_index g) deg normalized weight)
    (num_vertices g) (num_vertices g)
    (fun i j x => forall v, In v (vertices g) -> i = get_index g v ->
       x = lap_row g deg normalized weight v j (Fin 0)) sparse)
    as (mx & E & Hshape & Hq).
  - intros M S L.
    destruct (laplacian_loop_spec g deg normalized weight Hg)
      as (m' & E & Hm & Hs & G). exists m'; repeat split; auto.
  - exists mx; repeat split; auto.
    intros v j Hv Hj.
    destruct (Hq (get_index g v) j) as (x & Ex & Hx).
    { apply in_shape_true; simpl; split; auto. now apply index_lt. }
    now rewrite (Hx v Hv eq_refl) in Ex.
Qed.

(** *** sums over a row *)

Lemma filter_none {A} (f : A -> bool) l :
  (forall a, In a l -> f a = false) -> filter f l = [].
Proof.
  induction l as [|a t IH]; intros Hf; simpl; auto.
  rewrite (Hf a) by now left. apply IH; intros; apply Hf; now right.
Qed.

Lemma sum_map_ext_in {A} (f f' : A -> R) l :
  (forall a, In a l -> f a = f' a) -> sum (map f l) = sum (map f' l).
Proof. intros Hf; f_equal; now apply map_ext_in. Qed.

Lemma sum_map_plus {A} (f f' : A -> R) l :
  sum (map (fun a => (f a + f' a)%R) l) = (sum (map f l) + sum (map f' l))%R.
Proof.
  induction l as [|a t IH]; simpl.
  - unfold sum; simpl; lra.
  - rewrite !sum_cons, IH; lra.
Qed.

Lemma sum_map_opp {A} (f : A -> R) l :
  sum (map (fun a => (- f a)%R) l) = (- sum (map f l))%R.
Proof.
  induction l as [|a t IH]; simpl.
  - unfold sum; simpl; lra.
  - rewrite !sum_cons, IH; lra.
Qed.

Lemma sum_zero {A} (l : list A) : sum (map (fun _ => 0%R) l) = 0%R.
Proof.
  induction l as [|a t IH]; simpl; [reflexivity|]. rewrite sum_cons, IH; lra.
Qed.

(** one column receives the value, the others nothing *)
Lemma sum_single k (a : R) l :
  NoDup l -> In k l ->
  sum (map (fun j => if k =? j then a else 0%R) l) = a.
Proof.
  induction l as [|j t IH]; intros Hnd Hk; [contradiction|].
  inversion Hnd as [|? ? Hnotin Hnd']; subst. cbn [map]; rewrite sum_cons.
  destruct Hk as [->|Hk].
  - rewrite Nat.eqb_refl.
    rewrite (sum_map_ext_in _ (fun _ => 0%R)), sum_zero; [lra|].
    intros j Hj. destruct (Nat.eqb_spec k j); congruence.
  - rewrite IH by auto.
    destruct (Nat.eqb_spec k j); [congruence | lra].
Qed.

(** summing the per-column totals gives the total *)
Lemma sum_by_column {E} (col : E -> nat) (w : E -> R) (js : list nat) l :
  NoDup js -> (forall e, In e l -> In (col e) js) ->
  sum (map (fun j => sum (map w (filter (fun e => col e =? j) l))) js)
  = sum (map w l).
Proof.
  intros Hnd. induction l as [|e t IH]; intros Hc.
  - simpl. apply sum_zero.
  - rewrite (sum_map_ext_in _
      (fun j => ((if col e =? j then w e else 0)
                 + sum (map w (filter (fun e => col e =? j) t)))%R)).
    + rewrite sum_map_plus, IH by (intros e' He'; apply Hc; now right).
      rewrite sum_single by (auto; apply Hc; now left).
      cbn [map]; now rewrite sum_cons.
    + intros j _. cbn [filter]. destruct (col e =? j).
      * cbn [map]; now rewrite sum_cons.
      * lra.
Qed.

Lemma foldM_row_sum (get : nat -> result num) (r : nat -> R) l :
  (forall j, In j l -> get j = Ok (Fin (r j))) ->
  forall a,
  foldM (fun s j => x <- get j ;; Ok (nadd s x)) l (Fin a)
  = Ok (Fin (a + sum (map r l))).
Proof.
  induction l as [|j t IH]; intros Hget a; simpl.
  - unfold sum; simpl; do 2 f_equal; lra.
  - rewrite (Hget j) by now left. simpl.
    rewrite IH by (intros j' Hj'; apply Hget; now right).
    rewrite sum_cons; do 2 f_equal; lra.
Qed.

Lemma row_sum_fin m i (r : nat -> R) :
  (forall j, j < snd (mshape m) -> item m i j = Ok (Fin (r j))) ->
  row_sum m i = Ok (Fin (sum (map r (seq 0 (snd (mshape m)))))).
Proof.
  intros Hr. unfold row_sum.
  rewrite (foldM_row_sum (item m i) r).
  - do 2 f_equal; lra.
  - intros j Hj; apply Hr. apply in_seq in Hj; lia.
Qed.

(** *** the unnormalised Laplacian *)

Lemma lap_row_unnormalized g deg weight v j :
  lap_row g deg false weight v j (Fin 0)
  = Fin (if j =? get_index g v then _get_deg g v deg weight
         else (0 + sum (map (fun e => (- weight_of weight e)%R)
                         (filter (fun e => get_index g (target e) =? j)
                            (out_edges g v))))%R).
Proof.
  unfold lap_row. simpl negb. cbv iota.
  destruct (j =? get_index g v); [reflexivity|].
  rewrite <- acc_fin. unfold acc; f_equal.
  unfold lap_term, weight_of; simpl.
  destruct weight; reflexivity.
Qed.

Lemma out_degree_weight g v weight :
  _get_deg g v "out" weight = sum (map (weight_of weight) (out_edges g v)).
Proof.
  unfold _get_deg, weight_of; simpl. destruct weight as [w|]; [reflexivity|].
  unfold out_degree. now rewrite sum_ones.
Qed.

(** the sum of the row of [v]: its degree less the total weight of its
    out-edges that are not self-loops *)
Lemma laplacian_row_total g deg weight v :
  graph_ok g -> In v (vertices g) ->
  (forall e, In e (out_edges g v) -> target e <> v) ->
  sum (map (fun j =>
         if j =? get_index g v then _get_deg g v deg weight
         else (0 + sum (map (fun e => (- weight_of weight e)%R)
                         (filter (fun e => get_index g (target e) =? j)
                            (out_edges g v))))%R)
       (seq 0 (num_vertices g)))
  = (_get_deg g v deg weight - _get_deg g v "out" weight)%R.
Proof.
  intros Hg Hv Hloop.
  assert (Hcol : forall e, In e (out_edges g v) ->
            In (get_index g (target e)) (seq 0 (num_vertices g))).
  { intros e He. destruct (out_edges_spec g v e Hg He) as (_ & Ht & _).
    apply in_seq; split; [lia|]. simpl. now apply index_lt. }
  rewrite (sum_map_ext_in _
    (fun j => ((if get_index g v =? j then _get_deg g v deg weight else 0)
               + sum (map (fun e => (- weight_of weight e)%R)
                       (filter (fun e => get_index g (target e) =? j)
                          (out_edges g v))))%R)).
  - rewrite sum_map_plus, sum_single, sum_by_column; auto using seq_NoDup.
    + rewrite sum_map_opp, out_degree_weight; lra.
    + apply in_seq; split; [lia|]. simpl. now apply index_lt.
  - intros j _. rewrite (Nat.eqb_sym (get_index g v) j).
    destruct (Nat.eqb_spec j (get_index g v)) as [->|Hne]; [|lra].
    rewrite (filter_index_target g v v Hg Hv). unfold parallel.
    replace (filter (fun e => target e =? v) (out_edges g v)) with (@nil Edge).
    + unfold sum; simpl; lra.
    + symmetry. apply filter_none.
      intros e He. apply Nat.eqb_neq. now apply Hloop.
Qed.

(** C1 (amended). In [laplacian(g, normalized=False)] without a weight
    map, on a well-formed graph, the row of a vertex [v] sums to 0
    whenever [v] has no self-loop and its degree under the chosen [deg]
    equals its out-degree, as it does for [deg="out"]; the diagonal
    entry of that row is the degree. *)
Theorem laplacian_row_sum g deg sparse v :
  graph_ok g -> valid_deg deg -> In v (vertices g) ->
  _get_deg g v deg None = INR (out_degree g v) ->
  (forall e, In e (out_edges g v) -> target e <> v) ->
  exists m,
    laplacian g deg false sparse None = Ok m /\
    item m (get_index g v) (get_index g v) = Ok (Fin (INR (out_degree g v))) /\
    row_sum m (get_index g v) = Ok (Fin 0).
Proof.
  intros Hg Hdeg Hv Hout Hloop.
  destruct (laplacian_rows g deg false sparse None Hg Hdeg)
    as (m & E & Hshape & Hrows).
  exists m; split; [exact E|]. split.
  - rewrite (Hrows v _ Hv) by now apply index_lt.
    rewrite lap_row_unnormalized, Nat.eqb_refl, Hout; reflexivity.
  - rewrite (row_sum_fin m (get_index g v)
      (fun j => if j =? get_index g v then _get_deg g v deg None
         else (0 + sum (map (fun e => (- weight_of None e)%R)
                         (filter (fun e => get_index g (target e) =? j)
                            (out_edges g v))))%R)).
    + rewrite Hshape; cbn [snd].
      rewrite laplacian_row_total by auto.
      rewrite Hout. change (_get_deg g v "out" None) with (INR (out_degree g v)).
      do 2 f_equal; lra.
    + rewrite Hshape; cbn [snd]; intros j Hj.
      rewrite (Hrows v j Hv Hj). apply f_equal, lap_row_unnormalized.
Qed.

Lemma laplacian_row_sum_path3 :
  exists m,
    laplacian path3 "out" false true None = Ok m /\
    item m 1 1 = Ok (Fin 1) /\
    row_sum m 1 = Ok (Fin 0).
Proof.
  apply (laplacian_row_sum path3 "out" true 1 path3_ok).
  - right; right; reflexivity.
  - simpl; auto.
  - reflexivity.
  - intros e [<-|[]]; simpl; lia.
Defined.

(** C1 as stated fails for the default [deg="total"]: in the directed
    path [0 -> 1 -> 2] vertex [1] has a neighbour, degree 2 and one
    out-edge, so its row [0, 2, -1] sums to 1. *)
Lemma laplacian_row_sum_total_path3 :
  exists m,
    laplacian path3 "total" false false None = Ok m /\
    out_edges path3 1 <> [] /\
    item m 1 0 = Ok (Fin 0) /\
    item m 1 1 = Ok (Fin 2) /\
    row_sum m (get_index path3 1) = Ok (Fin 1) /\
    row_sum m (get_index path3 1) <> Ok (Fin 0).
Proof.
  exists (Dense (mkDense (3, 3)
            [[Fin (INR 1); Fin (0 + -1); Fin 0];
             [Fin 0; Fin (INR 2); Fin (0 + -1)];
             [Fin 0; Fin 0; Fin (INR 1)]])).
  split; [reflexivity|]. split; [discriminate|].
  split; [reflexivity|]. split; [reflexivity|].
  match goal with |- ?s = _ /\ _ => assert (Hs : s = Ok (Fin 1)) end.
  { change (Ok (Fin (0 + 0 + INR 2 + (0 + -1))) = Ok (Fin 1)).
    do 2 f_equal. simpl; lra. }
  split; [exact Hs|].
  rewrite Hs. intros Hc; inversion Hc as [Hr]. lra.
Qed.

(** ** _get_deg *)




(** ** The normalised Laplacian *)

Lemma acc_none {E} (col : E -> nat) (val : E -> num) l j x :
  (forall e, In e l -> col e <> j) -> acc col val l j x = x.
Proof.
  unfold acc. revert x; induction l as [|e t IH]; intros x Hc; simpl; auto.
  destruct (Nat.eqb_spec (col e) j) as [Heq|_].
  - exfalso; apply (Hc e); auto. now left.
  - apply IH; intros e' He'; apply Hc; now right.
Qed.

Lemma nadd_nonfinite_r x : nadd x NonFinite = NonFinite.
Proof. destruct x; reflexivity. Qed.

Lemma acc_from_nonfinite {E} (col : E -> nat) (val : E -> num) l j :
  acc col val l j NonFinite = NonFinite.
Proof.
  unfold acc. induction l as [|e t IH]; simpl; auto.
  destruct (col e =? j); auto.
Qed.

(** one non-finite term makes the accumulated entry non-finite *)
Lemma acc_nonfinite {E} (col : E -> nat) (val : E -> num) l j e :
  In e l -> col e = j -> val e = NonFinite ->
  forall x, acc col val l j x = NonFinite.
Proof.
  intros He Hc Hv. induction l as [|e' t IH]; intros x; [contradiction|].
  unfold acc; simpl. fold (acc col val t j).
  destruct He as [->|He].
  - rewrite Hc, Nat.eqb_refl, Hv, nadd_nonfinite_r.
    apply acc_from_nonfinite.
  - destruct (col e' =? j); now apply IH.
Qed.

Lemma neg_div_sqrt_zero w x : (x <= 0)%R -> neg_div_sqrt w x = NonFinite.
Proof.
  intros Hx. unfold neg_div_sqrt. destruct (Rle_dec x 0); tauto.
Qed.

Lemma index_target_neq g v e :
  graph_ok g -> In v (vertices g) -> In e (out_edges g v) ->
  target e <> v -> get_index g (target e) <> get_index g v.
Proof.
  intros Hg Hv He Hne E. apply Hne.
  destruct (out_edges_spec g v e Hg He) as (_ & Ht & _).
  now apply (index_inj g).
Qed.

(** C3 (amended). On a well-formed graph [laplacian(g, normalized=True)]
    raises no error and returns a matrix in which, for every vertex
    [v] of degree [d] (under the chosen [deg] and weight): the diagonal
    entry is exactly 1 when [d > 0]; the diagonal entry is 0 when
    [d == 0] and [v] has no self-loop; and the whole row is zero when
    [d == 0] and [v] has no out-edge. *)
Theorem laplacian_normalized_diagonal g deg sparse weight v :
  graph_ok g -> valid_deg deg -> In v (vertices g) ->
  exists m,
    laplacian g deg true sparse weight = Ok m /\
    ((0 < _get_deg g v deg weight)%R ->
     item m (get_index g v) (get_index g v) = Ok (Fin 1)) /\
    (_get_deg g v deg weight = 0%R ->
     (forall e, In e (out_edges g v) -> target e <> v) ->
     item m (get_index g v) (get_index g v) = Ok (Fin 0)) /\
    (_get_deg g v deg weight = 0%R -> out_edges g v = [] ->
     forall j, j < num_vertices g ->
     item m (get_index g v) j = Ok (Fin 0)).
Proof.
  intros Hg Hdeg Hv.
  destruct (laplacian_rows g deg true sparse weight Hg Hdeg)
    as (m & E & Hshape & Hrows).
  exists m; split; [exact E|].
  assert (Hi : get_index g v < num_vertices g) by now apply index_lt.
  split; [|split].
  - intros Hd. rewrite (Hrows v _ Hv Hi). unfold lap_row.
    rewrite Nat.eqb_refl. simpl negb. cbv iota.
    destruct (Rlt_dec 0 (_get_deg g v deg weight)); [|contradiction].
    destruct (Req_dec_T (_get_deg g v deg weight) 0); [lra | reflexivity].
  - intros Hd Hloop. rewrite (Hrows v _ Hv Hi). unfold lap_row.
    rewrite Nat.eqb_refl. simpl negb. cbv iota.
    destruct (Rlt_dec 0 (_get_deg g v deg weight)); [lra|].
    rewrite acc_none; auto.
    intros e He. exact (index_target_neq g v e Hg Hv He (Hloop e He)).
  - intros Hd Hout j Hj. rewrite (Hrows v j Hv Hj). unfold lap_row.
    rewrite Hout. simpl negb. cbv iota.
    destruct (Rlt_dec 0 (_get_deg g v deg weight)); [lra|].
    destruct (j =? get_index g v); reflexivity.
Qed.

Lemma laplacian_normalized_diagonal_path3 :
  exists m,
    laplacian path3 "out" true true None = Ok m /\
    item m 0 0 = Ok (Fin 1) /\
    item m 2 0 = Ok (Fin 0) /\ item m 2 1 = Ok (Fin 0) /\
    item m 2 2 = Ok (Fin 0).
Proof.
  destruct (laplacian_normalized_diagonal path3 "out" true None 0 path3_ok)
    as (m & E & H0 & _); [right; right; reflexivity | simpl; auto |].
  destruct (laplacian_normalized_diagonal path3 "out" true None 2 path3_ok)
    as (m' & E' & _ & _ & H2); [right; right; reflexivity | simpl; auto |].
  rewrite E in E'; inversion E'; subst m'.
  exists m; split; [exact E|]. split.
  - apply H0. change (0 < 1)%R. lra.
  - repeat split; apply (H2 eq_refl eq_refl); unfold num_vertices; simpl; lia.
Defined.

(** C3 as stated fails: in the directed graph with the single edge
    [0 -> 1] and [deg="in"], vertex [0] has degree 0, yet its row is
    not zero: the entry at column [1] is [-1/sqrt(0*1)], not finite. *)
Lemma laplacian_zero_degree_row :
  exists m,
    laplacian arc "in" true false None = Ok m /\
    _get_deg arc 0 "in" None = 0%R /\
    item m (get_index arc 0) 1 = Ok NonFinite /\
    item m (get_index arc 0) 1 <> Ok (Fin 0).
Proof.
  destruct (laplacian_rows arc "in" true false None arc_ok)
    as (m & E & _ & Hrows); [right; left; reflexivity|].
  exists m; split; [exact E|]. split; [reflexivity|].
  assert (H01 : item m (get_index arc 0) 1 = Ok NonFinite).
  { rewrite (Hrows 0 1) by (simpl; auto).
    f_equal. change (nadd (Fin 0) (neg_div_sqrt 1 (0 * INR 1)) = NonFinite).
    rewrite neg_div_sqrt_zero by lra. reflexivity. }
  split; [exact H01|]. rewrite H01; discriminate.
Qed.

(** C9. In [laplacian(g, normalized=True)] on a well-formed graph, a
    zero degree [d] or [d2] at an out-edge [e] of [v] that is not a
    self-loop raises nothing: the call returns a matrix, whose entry at
    [(index[v], index[e.target()])] is non-finite, as the term
    [-w/sqrt(d*d2)] itself is. *)
Theorem laplacian_zero_degree_nonfinite g deg sparse weight v e :
  graph_ok g -> valid_deg deg -> In v (vertices g) ->
  In e (out_edges g v) -> target e <> v ->
  _get_deg g v deg weight = 0%R \/ _get_deg g (target e) deg weight = 0%R ->
  exists m,
    laplacian g deg true sparse weight = Ok m /\
    lap_term g deg true weight v e = NonFinite /\
    item m (get_index g v) (get_index g (target e)) = Ok NonFinite.
Proof.
  intros Hg Hdeg Hv He Hne Hzero.
  destruct (laplacian_rows g deg true sparse weight Hg Hdeg)
    as (m & E & Hshape & Hrows).
  exists m; split; [exact E|].
  assert (Hterm : lap_term g deg true weight v e = NonFinite).
  { unfold lap_term; simpl. apply neg_div_sqrt_zero.
    destruct Hzero as [-> | ->]; lra. }
  split; [exact Hterm|].
  destruct (out_edges_spec g v e Hg He) as (_ & Ht & _).
  rewrite (Hrows v _ Hv) by now apply index_lt.
  unfold lap_row.
  destruct (Nat.eqb_spec (get_index g (target e)) (get_index g v)) as [Eq|_].
  - exfalso. exact (index_target_neq g v e Hg Hv He Hne Eq).
  - f_equal. now apply acc_nonfinite with (e := e).
Qed.

Lemma laplacian_zero_degree_nonfinite_arc :
  exists m,
    laplacian arc "in" true true None = Ok m /\
    lap_term arc "in" true None 0 (mkEdge 0 1 0) = NonFinite /\
    item m 0 1 = Ok NonFinite.
Proof.
  apply (laplacian_zero_degree_nonfinite arc "in" true None 0
           (mkEdge 0 1 0) arc_ok).
  - right; left; reflexivity.
  - simpl; auto.
  - simpl; auto.
  - simpl; lia.
  - left; reflexivity.
Defined.

(** ** The only exception of the loops is IndexError *)

Section Fine.
Context {M : Type} `{Lawful M}.

Lemma fine_setitem (m : M) i j x : rep_ok m -> fine (setitem m i j x).
Proof.
  intros Hm. destruct (in_shape (shape m) i j) eqn:Hin.
  - destruct (law_set_in m i j x Hm Hin) as (m' & E & Hm' & _).
    now rewrite E.
  - now rewrite (law_set_out m i j x Hin).
Qed.

Lemma fine_iadd (m : M) i j x : rep_ok m -> fine (iadd m i j x).
Proof.
  intros Hm. unfold iadd. destruct (in_shape (shape m) i j) eqn:Hin.
  - destruct (law_get_in m i j Hin) as (y & E). rewrite E; simpl.
    now apply fine_setitem.
  - now rewrite (law_get_out m i j Hin).
Qed.

Lemma fine_bind (r : result M) (k : M -> result M) :
  fine r -> (forall m, rep_ok m -> fine (k m)) -> fine (bind r k).
Proof. destruct r as [m|e]; simpl; auto. Qed.

Lemma fine_foldM {B} (f : M -> B -> result M) l :
  (forall m x, rep_ok m -> fine (f m x)) ->
  forall m, rep_ok m -> fine (foldM f l m).
Proof.
  intros Hf; induction l as [|x t IH]; intros m Hm; [exact Hm|].
  cbn [foldM]. apply (fine_bind (f m x) (foldM f t)); auto.
Qed.

Lemma fine_laplacian_loop g index deg normalized weight (m : M) :
  rep_ok m -> fine (laplacian_loop g index deg normalized weight m).
Proof.
  intros Hm. unfold laplacian_loop.
  apply fine_foldM; auto. intros m' v Hm'. apply fine_bind.
  - apply fine_foldM; auto. intros m'' e Hm''.
    destruct normalized; simpl; now apply fine_iadd.
  - intros m'' Hm''. destruct normalized; simpl.
    + destruct (Rlt_dec 0 (_get_deg g v deg weight));
        [now apply fine_setitem | exact Hm''].
    + now apply fine_setitem.
Qed.
End Fine.

Lemma limit_args_valid deg :
  existsb (String.eqb deg) ["total"; "in"; "out"]%string = true
  <-> valid_deg deg.
Proof.
  unfold valid_deg; simpl. rewrite !orb_true_iff, !String.eqb_eq.
  intuition discriminate.
Qed.

(** C8. [laplacian] raises InvalidArgument if and only if [deg] is not
    one of ["total"], ["in"], ["out"]: the check of [_limit_args] comes
    before the body, so that the outcome is then the exception for
    every graph and every other argument, and the body itself never
    raises it. *)
Theorem laplacian_invalid_argument g deg normalized sparse weight :
  laplacian g deg normalized sparse weight = Raise InvalidArgument
  <-> ~ valid_deg deg.
Proof.
  unfold laplacian, _limit_args.
  destruct (existsb (String.eqb deg) ["total"; "in"; "out"]%string) eqn:Hd.
  - apply limit_args_valid in Hd. split; [|tauto].
    intros E; exfalso. destruct sparse.
    + pose proof (fine_laplacian_loop g (get_index g) deg normalized weight
                    (lil_matrix (num_vertices g) (num_vertices g))
                    (law_new_ok (M:=lil) _ _)) as Hf.
      destruct (laplacian_loop _ _ _ _ _ _) as [m|e]; simpl in *;
        [discriminate | congruence].
    + pose proof (fine_laplacian_loop g (get_index g) deg normalized weight
                    (zeros (num_vertices g) (num_vertices g))
                    (law_new_ok (M:=dense) _ _)) as Hf.
      destruct (laplacian_loop _ _ _ _ _ _) as [m|e]; simpl in *;
        [discriminate | congruence].
  - split; [|reflexivity]. intros _ Hv.
    apply limit_args_valid in Hv. congruence.
Qed.

(** ** The graph without vertices *)



(** ** incidence *)

Lemma out_edges_eindex_lt g v e :
  graph_ok g -> In e (out_edges g v) -> get_eindex g (eid e) < num_edges g.
Proof.
  intros Hg He. destruct (out_edges_spec g v e Hg He) as (_ & _ & e0 & H0 & <-).
  now apply eindex_lt.
Qed.

Lemma in_edges_eindex_lt g v e :
  graph_ok g -> In e (in_edges g v) -> get_eindex g (eid e) < num_edges g.
Proof.
  intros Hg He. destruct (in_edges_spec g v e Hg He) as (_ & _ & H0).
  now apply eindex_lt.
Qed.

Section IncidenceEntries.
Context {M : Type} `{Lawful M}.

Lemma incidence_body_spec g :
  graph_ok g ->
  row_step
    (fun (m : M) v =>
       if is_directed g then
         m <- foldM (fun m e =>
                iadd m (get_index g v) (get_eindex g (eid e)) (Fin (-1)))
                (out_edges g v) m ;;
         foldM (fun m e =>
           iadd m (get_index g v) (get_eindex g (eid e)) (Fin 1))
           (in_edges g v) m
       else
         foldM (fun m e =>
           iadd m (get_index g v) (get_eindex g (eid e)) (Fin 1))
           (out_edges g v) m)
    (get_index g) (inc_row g)
    (num_vertices g, num_edges g) (vertices g).
Proof.
  intros Hg m v Hv Hm Hs. unfold inc_row.
  assert (Hi : get_index g v < num_vertices g) by now apply index_lt.
  destruct (is_directed g).
  - destruct (row_loop (fun e => get_eindex g (eid e)) (fun _ => Fin (-1))
                (get_index g v) (out_edges g v) m Hm)
      as (m1 & E1 & H1 & S1 & G1).
    { now rewrite Hs. }
    { intros e He; rewrite Hs; simpl. now apply (out_edges_eindex_lt g v). }
    rewrite E1; simpl bind.
    destruct (row_loop (fun e => get_eindex g (eid e)) (fun _ => Fin 1)
                (get_index g v) (in_edges g v) m1 H1)
      as (m2 & E2 & H2 & S2 & G2).
    { now rewrite S1, Hs. }
    { intros e He; rewrite S1, Hs; simpl. now apply (in_edges_eindex_lt g v). }
    exists m2; repeat split; auto; try congruence.
    intros i j; rewrite G2, G1. destruct (i =? get_index g v); reflexivity.
  - destruct (row_loop (fun e => get_eindex g (eid e)) (fun _ => Fin 1)
                (get_index g v) (out_edges g v) m Hm)
      as (m1 & E1 & H1 & S1 & G1).
    { now rewrite Hs. }
    { intros e He; rewrite Hs; simpl. now apply (out_edges_eindex_lt g v). }
    exists m1; repeat split; auto; congruence.
Qed.

Lemma incidence_loop_spec g :
  graph_ok g ->
  exists m',
    incidence_loop g (get_index g) (get_eindex g)
      (new_matrix (num_vertices g) (num_edges g)) = Ok m' /\
    rep_ok m' /\ shape m' = (num_vertices g, num_edges g) /\
    forall i j v, In v (vertices g) -> i = get_index g v ->
      cell m' i j = inc_row g v j (Fin 0).
Proof.
  intros Hg. unfold incidence_loop.
  destruct (rows_loop _ _ _ _ _
              (incidence_body_spec g Hg) (index_nodup g Hg)
              (new_matrix (num_vertices g) (num_edges g))
              (law_new_ok _ _) (law_new_shape _ _))
    as (m' & E & Hm & Hs & Gin & _).
  exists m'; repeat split; auto.
  intros i j v Hv ->. rewrite (Gin v j Hv), new_cell; reflexivity.
Qed.
End IncidenceEntries.

(** every row of the incidence matrix of a well-formed graph *)
Lemma incidence_rows g sparse :
  graph_ok g ->
  exists m,
    incidence g sparse = Ok m /\
    mshape m = (num_vertices g, num_edges g) /\
    forall v j, In v (vertices g) -> j < num_edges g ->
      item m (get_index g v) j = Ok (inc_row g v j (Fin 0)).
Proof.
  intros Hg. unfold incidence.
  destruct (loop_to_matrix
    (fun M S => incidence_loop g (get_index g) (get_eindex g))
    (num_vertices g) (num_edges g)
    (fun i j x => forall v, In v (vertices g) -> i = get_index g v ->
       x = inc_row g v j (Fin 0)) sparse)
    as (mx & E & Hshape & Hq).
  - intros M S L.
    destruct (incidence_loop_spec g Hg) as (m' & E & Hm & Hs & G).
    exists m'; repeat split; auto.
  - exists mx; repeat split; auto.
    intros v j Hv Hj.
    destruct (Hq (get_index g v) j) as (x & Ex & Hx).
    { apply in_shape_true; simpl; split; auto. now apply index_lt. }
    now rewrite (Hx v Hv eq_refl) in Ex.
Qed.

(** *** the edges that fall in one column *)

Lemma filter_enum {A} (f : A -> nat) (l : list A) :
  forall s j a, map f l = seq s (length l) -> nth_error l j = Some a ->
  filter (fun x => f x =? s + j) l = [a].
Proof.
  induction l as [|a0 t IH]; intros s j a Hmap Hnth.
  - destruct j; discriminate.
  - cbn [map length seq] in Hmap. inversion Hmap as [[H0 Ht]].
    destruct j as [|j]; cbn [nth_error] in Hnth.
    + inversion Hnth; subst a0. cbn [filter].
      rewrite Nat.add_0_r, Nat.eqb_refl. f_equal.
      apply filter_none. intros x Hx. apply Nat.eqb_neq.
      apply (in_map f) in Hx. rewrite Ht in Hx. apply in_seq in Hx. lia.
    + cbn [filter].
      destruct (Nat.eqb_spec (f a0) (f a0 + S j)) as [Heq|_]; [lia|].
      rewrite <- Nat.add_succ_comm. now apply IH.
Qed.

Lemma column_edges g j e :
  graph_ok g -> nth_error (edges g) j = Some e ->
  filter (fun e' => get_eindex g (eid e') =? j) (edges g) = [e].
Proof.
  intros Hg Hnth.
  apply (filter_enum (fun e' => get_eindex g (eid e')) (edges g) 0 j e);
    auto.
  apply (eindex_enum g Hg).
Qed.

Lemma filter_comm {A} (p q : A -> bool) l :
  filter p (filter q l) = filter q (filter p l).
Proof.
  induction l as [|a t IH]; simpl; auto.
  destruct (p a) eqn:Hp, (q a) eqn:Hq; simpl; rewrite ?Hp, ?Hq; congruence.
Qed.

Lemma filter_map_comm {A B} (p : B -> bool) (f : A -> B) l :
  filter p (map f l) = map f (filter (fun a => p (f a)) l).
Proof.
  induction l as [|a t IH]; simpl; auto.
  destruct (p (f a)); simpl; congruence.
Qed.

(** the number of times the edge of column [j] is met *)
Lemma acc_count {E} (col : E -> nat) (a : R) (l : list E) j x :
  acc col (fun _ => Fin a) l j (Fin x)
  = Fin (x + a * INR (length (filter (fun e => col e =? j) l))).
Proof.
  rewrite acc_fin. f_equal. f_equal.
  induction (filter (fun e => col e =? j) l) as [|e t IH].
  - unfold sum; simpl; lra.
  - cbn [map length]. rewrite sum_cons, IH, S_INR; lra.
Qed.

Lemma column_sources g j e v :
  graph_ok g -> nth_error (edges g) j = Some e ->
  filter (fun e' => get_eindex g (eid e') =? j)
    (filter (fun e' => source e' =? v) (edges g))
  = if source e =? v then [e] else [].
Proof.
  intros Hg Hnth. rewrite filter_comm, (column_edges g j e Hg Hnth).
  reflexivity.
Qed.

Lemma column_targets g j e v :
  graph_ok g -> nth_error (edges g) j = Some e ->
  filter (fun e' => get_eindex g (eid e') =? j)
    (filter (fun e' => target e' =? v) (edges g))
  = if target e =? v then [e] else [].
Proof.
  intros Hg Hnth. rewrite filter_comm, (column_edges g j e Hg Hnth).
  reflexivity.
Qed.

Lemma row_vertex g i :
  graph_ok g -> i < num_vertices g ->
  exists v, In v (vertices g) /\ get_index g v = i.
Proof.
  intros Hg Hi.
  assert (Hin : In i (map (get_index g) (vertices g))).
  { rewrite (index_enum g Hg). apply in_seq; lia. }
  apply in_map_iff in Hin. destruct Hin as (v & Ev & Hv). eauto.
Qed.

Lemma index_eqb g u v :
  graph_ok g -> In u (vertices g) -> In v (vertices g) ->
  (get_index g u =? get_index g v) = (u =? v).
Proof.
  intros Hg Hu Hv. destruct (Nat.eqb_spec u v) as [->|Hne].
  - apply Nat.eqb_refl.
  - apply Nat.eqb_neq. intros E. apply Hne. now apply (index_inj g).
Qed.

(** C5. In the incidence matrix of a well-formed directed graph, the
    column of an edge that is not a self-loop holds +1 at the row of
    its target, -1 at the row of its source and 0 in every other row;
    the column of a self-loop is 0 in every row, its two contributions
    cancelling in one cell. *)
Theorem incidence_directed_column g sparse j e :
  graph_ok g -> is_directed g = true -> nth_error (edges g) j = Some e ->
  exists m,
    incidence g sparse = Ok m /\
    mshape m = (num_vertices g, num_edges g) /\
    forall i, i < num_vertices g ->
      item m i j
      = Ok (Fin (if source e =? target e then 0
                 else if i =? get_index g (target e) then 1
                 else if i =? get_index g (source e) then -1
                 else 0)).
Proof.
  intros Hg Hdir Hnth.
  destruct (incidence_rows g sparse Hg) as (m & E & Hshape & Hrows).
  exists m; split; [exact E|]. split; [exact Hshape|]. intros i Hi.
  destruct (row_vertex g i Hg Hi) as (v & Hv & <-).
  assert (Hj : j < num_edges g)
    by (apply nth_error_Some; rewrite Hnth; discriminate).
  destruct (ok_ends g Hg e (nth_error_In _ _ Hnth)) as [Hs Ht].
  rewrite (Hrows v j Hv Hj). f_equal.
  unfold inc_row, out_edges, in_edges. rewrite Hdir, !acc_count.
  rewrite (column_sources g j e v Hg Hnth), (column_targets g j e v Hg Hnth).
  rewrite !(index_eqb g) by auto.
  rewrite (Nat.eqb_sym v (target e)), (Nat.eqb_sym v (source e)).
  f_equal.
  destruct (Nat.eqb_spec (source e) (target e)) as [Est|Nst].
  - rewrite <- Est. destruct (source e =? v); simpl; lra.
  - destruct (Nat.eqb_spec (target e) v) as [Etv|Ntv];
      destruct (Nat.eqb_spec (source e) v) as [Esv|Nsv];
      simpl; try lra. congruence.
Qed.

Lemma incidence_directed_column_path3 :
  exists m,
    incidence path3 true = Ok m /\
    mshape m = (3, 2) /\
    forall i, i < 3 ->
      item m i 1
      = Ok (Fin (if i =? 2 then 1 else if i =? 1 then -1 else 0)).
Proof.
  apply (incidence_directed_column path3 true 1 (mkEdge 1 2 1) path3_ok);
    reflexivity.
Defined.

(** a directed self-loop: the single cell of its column receives -1
    and +1 *)
Example incidence_directed_self_loop :
  incidence dloop1 false = Ok (Dense (mkDense (1, 1) [[Fin (0 + -1 + 1)]])).
Proof. reflexivity. Qed.

(** C6. In the incidence matrix of a well-formed undirected graph, the
    column of an edge that is not a self-loop holds +1 at the rows of
    its two endpoints and 0 in every other row; the column of a
    self-loop holds 2 at the row of its vertex and 0 elsewhere. *)
Theorem incidence_undirected_column g sparse j e :
  graph_ok g -> is_directed g = false -> nth_error (edges g) j = Some e ->
  exists m,
    incidence g sparse = Ok m /\
    mshape m = (num_vertices g, num_edges g) /\
    forall i, i < num_vertices g ->
      item m i j
      = Ok (Fin (if source e =? target e
                 then (if i =? get_index g (source e) then 2 else 0)
                 else if (i =? get_index g (source e))
                         || (i =? get_index g (target e)) then 1
                 else 0)).
Proof.
  intros Hg Hdir Hnth.
  destruct (incidence_rows g sparse Hg) as (m & E & Hshape & Hrows).
  exists m; split; [exact E|]. split; [exact Hshape|]. intros i Hi.
  destruct (row_vertex g i Hg Hi) as (v & Hv & <-).
  assert (Hj : j < num_edges g)
    by (apply nth_error_Some; rewrite Hnth; discriminate).
  destruct (ok_ends g Hg e (nth_error_In _ _ Hnth)) as [Hs Ht].
  rewrite (Hrows v j Hv Hj). f_equal.
  unfold inc_row, out_edges. rewrite Hdir, acc_count.
  rewrite filter_app, filter_map_comm. cbn [flip eid].
  rewrite (column_sources g j e v Hg Hnth), (column_targets g j e v Hg Hnth).
  rewrite length_app, length_map.
  rewrite !(index_eqb g) by auto.
  rewrite (Nat.eqb_sym v (target e)), (Nat.eqb_sym v (source e)).
  f_equal.
  destruct (Nat.eqb_spec (source e) (target e)) as [Est|Nst].
  - rewrite <- Est. destruct (source e =? v); simpl; lra.
  - destruct (Nat.eqb_spec (target e) v) as [Etv|Ntv];
      destruct (Nat.eqb_spec (source e) v) as [Esv|Nsv];
      simpl; try lra. congruence.
Qed.

Lemma incidence_undirected_column_und1 :
  exists m,
    incidence und1 true = Ok m /\
    mshape m = (2, 1) /\
    forall i, i < 2 ->
      item m i 0 = Ok (Fin (if (i =? 0) || (i =? 1) then 1 else 0)).
Proof.
  apply (incidence_undirected_column und1 true 0 (mkEdge 0 1 0) und1_ok);
    reflexivity.
Defined.

(** an undirected self-loop: the single cell of its column receives +1
    twice *)
Example incidence_undirected_self_loop :
  incidence loop1 false = Ok (Dense (mkDense (1, 1) [[Fin (0 + 1 + 1)]])).
Proof. reflexivity. Qed.

(** * Further properties of the module *)

(** ** Rows and columns follow the iteration order *)

Lemma nth_error_enum {A} (f : A -> nat) (l : list A) i a :
  map f l = seq 0 (length l) -> nth_error l i = Some a -> f a = i.
Proof.
  intros Hmap Hnth.
  assert (Hi : i < length l) by (apply nth_error_Some; congruence).
  apply (map_nth_error f) in Hnth. rewrite Hmap in Hnth.
  apply (nth_error_nth _ _ 0) in Hnth. rewrite seq_nth in Hnth by exact Hi.
  simpl in Hnth; congruence.
Qed.

(** X1. In a well-formed graph the [i]-th vertex of [g.vertices()] gets
    the row index [i], whether the index map is built by enumeration
    (a vertex filter is set) or is the graph's own [vertex_index]. *)
Theorem vertex_row_is_position g i v :
  graph_ok g -> nth_error (vertices g) i = Some v -> get_index g v = i.
Proof.
  intros Hg Hnth.
  apply (nth_error_enum (get_index g) (vertices g) i v); auto.
  apply (index_enum g Hg).
Qed.

Lemma vertex_row_is_position_filtered :
  get_index path3_filtered 2 = 1.
Proof.
  apply (vertex_row_is_position path3_filtered 1 2 path3_filtered_ok).
  reflexivity.
Defined.

(** X2. In a well-formed graph the [j]-th edge of [g.edges()] gets the
    column index [j] in [incidence], also when the edge indices of the
    active edges are not [0..E-1]. *)
Theorem edge_column_is_position g j e :
  graph_ok g -> nth_error (edges g) j = Some e -> get_eindex g (eid e) = j.
Proof.
  intros Hg Hnth.
  apply (nth_error_enum (fun e => get_eindex g (eid e)) (edges g) j e); auto.
  apply (eindex_enum g Hg).
Qed.

Lemma edge_column_is_position_filtered :
  get_eindex path3_filtered 1 = 0.
Proof.
  apply (edge_column_is_position path3_filtered 0 (mkEdge 1 2 1)
           path3_filtered_ok).
  reflexivity.
Defined.

(** ** Well-formed graphs raise nothing *)

(** every row of the adjacency matrix of a well-formed graph *)
Lemma adjacency_rows g sparse weight :
  graph_ok g ->
  exists m,
    adjacency g sparse weight = Ok m /\
    mshape m = (num_vertices g, num_vertices g) /\
    forall u v, In u (vertices g) -> In v (vertices g) ->
      item m (get_index g u) (get_index g v)
        = Ok (Fin (sum (map (weight_of weight) (parallel g u v)))).
Proof.
  intros Hg. unfold adjacency.
  destruct (loop_to_matrix
    (fun M S => adjacency_loop g (get_index g) weight)
    (num_vertices g) (num_vertices g)
    (fun i j x => forall u v, In u (vertices g) -> In v (vertices g) ->
       i = get_index g u -> j = get_index g v ->
       x = Fin (sum (map (weight_of weight) (parallel g u v)))) sparse)
    as (mx & E & Hshape & Hq).
  - intros M S L. destruct (adjacency_loop_spec g weight Hg)
      as (m' & E & Hm & Hs & G). exists m'; repeat split; auto.
  - exists mx; split; [exact E|]. split; [exact Hshape|].
    intros u v Hu Hv.
    destruct (Hq (get_index g u) (get_index g v)) as (x & Ex & Hx).
    { apply in_shape_true; simpl; split; now apply index_lt. }
    now rewrite (Hx u v Hu Hv eq_refl eq_refl) in Ex.
Qed.

(** X3. On a well-formed graph none of the three functions raises:
    [adjacency] and [laplacian] (with a valid [deg]) return an N-by-N
    matrix and [incidence] an N-by-E matrix, N the number of active
    vertices and E the number of active edges. *)
Theorem well_formed_shapes g sparse deg normalized weight :
  graph_ok g -> valid_deg deg ->
  (exists m, adjacency g sparse weight = Ok m /\
             mshape m = (num_vertices g, num_vertices g)) /\
  (exists m, laplacian g deg normalized sparse weight = Ok m /\
             mshape m = (num_vertices g, num_vertices g)) /\
  (exists m, incidence g sparse = Ok m /\
             mshape m = (num_vertices g, num_edges g)).
Proof.
  intros Hg Hdeg. split; [|split].
  - destruct (adjacency_rows g sparse weight Hg) as (m & E & Hs & _); eauto.
  - destruct (laplacian_rows g deg normalized sparse weight Hg Hdeg)
      as (m & E & Hs & _); eauto.
  - destruct (incidence_rows g sparse Hg) as (m & E & Hs & _); eauto.
Qed.

Lemma well_formed_shapes_path3 :
  (exists m, adjacency path3 true None = Ok m /\ mshape m = (3, 3)) /\
  (exists m, laplacian path3 "total" true true None = Ok m /\
             mshape m = (3, 3)) /\
  (exists m, incidence path3 true = Ok m /\ mshape m = (3, 2)).
Proof.
  apply (well_formed_shapes path3 true "total" true None path3_ok).
  left; reflexivity.
Defined.

(** ** Row and column sums of the adjacency matrix *)

Lemma foldM_map {A B C} (f : A -> C -> result A) (h : B -> C) l :
  forall a, foldM f (map h l) a = foldM (fun a x => f a (h x)) l a.
Proof.
  induction l as [|x t IH]; intros a; simpl; auto.
  destruct (f a (h x)); simpl; auto.
Qed.

(** a column summed over the vertices, whose indices are the rows *)
Lemma col_sum_vertices g m j (r : nat -> R) :
  graph_ok g -> fst (mshape m) = num_vertices g ->
  (forall u, In u (vertices g) ->
     item m (get_index g u) j = Ok (Fin (r u))) ->
  col_sum m j = Ok (Fin (sum (map r (vertices g)))).
Proof.
  intros Hg Hshape Hr. unfold col_sum.
  rewrite Hshape, <- (index_enum g Hg), foldM_map.
  rewrite (foldM_row_sum (fun u => item m (get_index g u) j) r) by exact Hr.
  do 2 f_equal; lra.
Qed.

Lemma in_degree_weight g v weight :
  _get_deg g v "in" weight = sum (map (weight_of weight) (in_edges g v)).
Proof.
  unfold _get_deg, weight_of; simpl. destruct weight as [w|]; [reflexivity|].
  unfold in_degree. now rewrite sum_ones.
Qed.

Lemma filter_filter_and {A} (p q : A -> bool) l :
  filter p (filter q l) = filter (fun x => q x && p x) l.
Proof.
  induction l as [|a t IH]; simpl; auto.
  destruct (q a); simpl; [destruct (p a)|]; congruence.
Qed.

(** X4. In the adjacency matrix of a well-formed graph without weight
    map the row of a vertex sums to its out-degree, the number of its
    out-edges. *)
Theorem adjacency_row_sum g sparse u :
  graph_ok g -> In u (vertices g) ->
  exists m,
    adjacency g sparse None = Ok m /\
    row_sum m (get_index g u) = Ok (Fin (INR (out_degree g u))).
Proof.
  intros Hg Hu.
  destruct (adjacency_rows g sparse None Hg) as (m & E & Hshape & Hrows).
  exists m; split; [exact E|].
  rewrite (row_sum_fin m (get_index g u)
    (fun j => sum (map (weight_of None)
                    (filter (fun e => get_index g (target e) =? j)
                       (out_edges g u))))).
  - rewrite Hshape; cbn [snd]. rewrite sum_by_column.
    + now rewrite <- out_degree_weight.
    + apply seq_NoDup.
    + intros e He. destruct (out_edges_spec g u e Hg He) as (_ & Ht & _).
      apply in_seq; split; [lia|]. simpl. now apply index_lt.
  - rewrite Hshape; cbn [snd]. intros j Hj.
    destruct (row_vertex g j Hg Hj) as (v & Hv & <-).
    rewrite (Hrows u v Hu Hv), filter_index_target by auto. reflexivity.
Qed.

Lemma adjacency_row_sum_par2 :
  exists m,
    adjacency par2 true None = Ok m /\ row_sum m 0 = Ok (Fin 2).
Proof.
  apply (adjacency_row_sum par2 true 0 par2_ok). simpl; auto.
Defined.

(** X5. In the adjacency matrix of a well-formed directed graph without
    weight map the column of a vertex sums to its in-degree, the number
    of its in-edges. *)
Theorem adjacency_col_sum g sparse v :
  graph_ok g -> is_directed g = true -> In v (vertices g) ->
  exists m,
    adjacency g sparse None = Ok m /\
    col_sum m (get_index g v) = Ok (Fin (INR (in_degree g v))).
Proof.
  intros Hg Hdir Hv.
  destruct (adjacency_rows g sparse None Hg) as (m & E & Hshape & Hrows).
  exists m; split; [exact E|].
  rewrite (col_sum_vertices g m (get_index g v)
    (fun u => sum (map (weight_of None)
                    (filter (fun e => source e =? u) (in_edges g v))))).
  - rewrite sum_by_column.
    + now rewrite <- in_degree_weight.
    + apply (ok_nodup g Hg).
    + intros e He. now destruct (in_edges_spec g v e Hg He) as (_ & Hs & _).
  - exact Hg.
  - now rewrite Hshape.
  - intros u Hu. rewrite (Hrows u v Hu Hv).
    unfold parallel, out_edges, in_edges. rewrite Hdir, filter_comm.
    reflexivity.
Qed.

Lemma adjacency_col_sum_par2 :
  exists m,
    adjacency par2 true None = Ok m /\ col_sum m 1 = Ok (Fin 2).
Proof.
  apply (adjacency_col_sum par2 true 1 par2_ok); simpl; auto.
Defined.

(** ** Undirected graphs give symmetric matrices *)

(** what [u.out_edges()] yields towards [v] in an undirected graph: the
    edges stored from [u] to [v], and those stored from [v] to [u] seen
    from their other end *)
Lemma parallel_undirected g u v :
  is_directed g = false ->
  parallel g u v = stored g u v ++ map flip (stored g v u).
Proof.
  intros Hund. unfold parallel, out_edges, stored. rewrite Hund.
  rewrite filter_app, filter_map_comm, !filter_filter_and. cbn [flip target].
  do 2 f_equal. apply filter_ext. intros e. apply andb_comm.
Qed.

Lemma parallel_weight_symmetric g weight u v :
  is_directed g = false ->
  sum (map (weight_of weight) (parallel g u v))
  = sum (map (weight_of weight) (parallel g v u)).
Proof.
  intros Hund. rewrite !parallel_undirected by exact Hund.
  rewrite !map_app, !sum_app, !map_map.
  change (fun e => weight_of weight (flip e)) with (weight_of weight).
  lra.
Qed.

(** X6. The adjacency matrix of a well-formed undirected graph without
    weight map is symmetric: [a[i, j] == a[j, i]] for all rows and
    columns. *)
Theorem adjacency_symmetric g sparse :
  graph_ok g -> is_directed g = false ->
  exists m,
    adjacency g sparse None = Ok m /\
    forall i j, i < num_vertices g -> j < num_vertices g ->
      item m i j = item m j i.
Proof.
  intros Hg Hund.
  destruct (adjacency_rows g sparse None Hg) as (m & E & Hshape & Hrows).
  exists m; split; [exact E|]. intros i j Hi Hj.
  destruct (row_vertex g i Hg Hi) as (u & Hu & <-).
  destruct (row_vertex g j Hg Hj) as (v & Hv & <-).
  rewrite (Hrows u v Hu Hv), (Hrows v u Hv Hu).
  now rewrite (parallel_weight_symmetric g None u v Hund).
Qed.

Lemma adjacency_symmetric_und1 :
  exists m,
    adjacency und1 true None = Ok m /\
    forall i j, i < 2 -> j < 2 -> item m i j = item m j i.
Proof.
  apply (adjacency_symmetric und1 true und1_ok). reflexivity.
Defined.

(** ** The unnormalised Laplacian is degree minus adjacency *)

Lemma laplacian_entry_unnormalized g deg sparse weight :
  graph_ok g -> valid_deg deg ->
  exists m,
    laplacian g deg false sparse weight = Ok m /\
    mshape m = (num_vertices g, num_vertices g) /\
    forall u v, In u (vertices g) -> In v (vertices g) ->
      item m (get_index g u) (get_index g v)
      = Ok (Fin (if u =? v then _get_deg g u deg weight
                 else - sum (map (weight_of weight) (parallel g u v)))).
Proof.
  intros Hg Hdeg.
  destruct (laplacian_rows g deg false sparse weight Hg Hdeg)
    as (m & E & Hshape & Hrows).
  exists m; split; [exact E|]. split; [exact Hshape|]. intros u v Hu Hv.
  rewrite (Hrows u _ Hu) by now apply index_lt.
  rewrite lap_row_unnormalized, (index_eqb g v u Hg Hv Hu).
  rewrite (Nat.eqb_sym v u). do 2 f_equal.
  destruct (u =? v); [reflexivity|].
  rewrite filter_index_target, sum_map_opp by auto. lra.
Qed.

(** X7. For a well-formed graph, [laplacian(g, normalized=False)] is the
    degree matrix minus the adjacency matrix off the diagonal, [l[i, j]
    == -a[i, j]], and the degree itself on the diagonal, where the
    assignment overwrites what self-loops added. *)
Theorem laplacian_degree_minus_adjacency g deg sparse weight :
  graph_ok g -> valid_deg deg ->
  exists a l,
    adjacency g sparse weight = Ok a /\
    laplacian g deg false sparse weight = Ok l /\
    forall u v, In u (vertices g) -> In v (vertices g) ->
      exists x,
        item a (get_index g u) (get_index g v) = Ok (Fin x) /\
        item l (get_index g u) (get_index g v)
        = Ok (Fin (if u =? v then _get_deg g u deg weight else - x)).
Proof.
  intros Hg Hdeg.
  destruct (adjacency_rows g sparse weight Hg) as (a & Ea & _ & Ha).
  destruct (laplacian_entry_unnormalized g deg sparse weight Hg Hdeg)
    as (l & El & _ & Hl).
  exists a, l; split; [exact Ea|]. split; [exact El|]. intros u v Hu Hv.
  exists (sum (map (weight_of weight) (parallel g u v))).
  split; [now apply Ha | now apply Hl].
Qed.

Lemma laplacian_degree_minus_adjacency_dloop1 :
  exists a l,
    adjacency dloop1 true None = Ok a /\
    laplacian dloop1 "out" false true None = Ok l /\
    forall u v, In u [0] -> In v [0] ->
      exists x,
        item a (get_index dloop1 u) (get_index dloop1 v) = Ok (Fin x) /\
        item l (get_index dloop1 u) (get_index dloop1 v)
        = Ok (Fin (if u =? v then _get_deg dloop1 u "out" None else - x)).
Proof.
  apply (laplacian_degree_minus_adjacency dloop1 "out" true None dloop1_ok).
  right; right; reflexivity.
Defined.

Lemma get_deg_total g v weight :
  _get_deg g v "total" weight
  = (_get_deg g v "in" weight + _get_deg g v "out" weight)%R.
Proof.
  unfold _get_deg; simpl. destruct weight as [w|].
  - unfold all_edges. rewrite map_app, sum_app; lra.
  - rewrite plus_INR; lra.
Qed.

(** X8. In [laplacian(g, normalized=False)] without a weight map, on a
    well-formed graph, the row of a vertex without self-loop sums to
    its degree under [deg] less its out-degree: to its in-degree for
    the default [deg="total"]. *)
Theorem laplacian_row_sum_degrees g deg sparse v :
  graph_ok g -> valid_deg deg -> In v (vertices g) ->
  (forall e, In e (out_edges g v) -> target e <> v) ->
  exists m,
    laplacian g deg false sparse None = Ok m /\
    row_sum m (get_index g v)
      = Ok (Fin (_get_deg g v deg None - INR (out_degree g v))) /\
    (deg = "total"%string ->
     row_sum m (get_index g v) = Ok (Fin (INR (in_degree g v)))).
Proof.
  intros Hg Hdeg Hv Hloop.
  destruct (laplacian_rows g deg false sparse None Hg Hdeg)
    as (m & E & Hshape & Hrows).
  exists m; split; [exact E|].
  assert (Hsum : row_sum m (get_index g v)
            = Ok (Fin (_get_deg g v deg None - INR (out_degree g v)))).
  { rewrite (row_sum_fin m (get_index g v)
      (fun j => if j =? get_index g v then _get_deg g v deg None
         else (0 + sum (map (fun e => (- weight_of None e)%R)
                         (filter (fun e => get_index g (target e) =? j)
                            (out_edges g v))))%R)).
    - rewrite Hshape; cbn [snd].
      now rewrite laplacian_row_total by auto.
    - rewrite Hshape; cbn [snd]; intros j Hj.
      rewrite (Hrows v j Hv Hj). apply f_equal, lap_row_unnormalized. }
  split; [exact Hsum|]. intros ->. rewrite Hsum, get_deg_total.
  change (_get_deg g v "in" None) with (INR (in_degree g v)).
  change (_get_deg g v "out" None) with (INR (out_degree g v)).
  do 2 f_equal; lra.
Qed.

Lemma laplacian_row_sum_degrees_path3 :
  exists m,
    laplacian path3 "total" false true None = Ok m /\
    row_sum m 1 = Ok (Fin (INR 2 - INR 1)) /\
    ("total"%string = "total"%string -> row_sum m 1 = Ok (Fin 1)).
Proof.
  apply (laplacian_row_sum_degrees path3 "total" true 1 path3_ok).
  - left; reflexivity.
  - simpl; auto.
  - intros e [<-|[]]; simpl; lia.
Defined.

(** ** Arguments that do not change the Laplacian *)

Lemma laplacian_loop_congr {M} `{Store M} g index deg deg' normalized
    weight weight' (m : M) :
  (forall v, _get_deg g v deg weight = _get_deg g v deg' weight') ->
  (forall e, weight_of weight e = weight_of weight' e) ->
  laplacian_loop g index deg normalized weight m
  = laplacian_loop g index deg' normalized weight' m.
Proof.
  intros Hd Hw. unfold laplacian_loop.
  apply foldM_ext. intros a v. cbv zeta. rewrite <- (Hd v).
  rewrite (foldM_ext _
    (fun m e =>
       if negb normalized then
         iadd m (index v) (index (target e))
           (Fin match weight' with
                | None => (-1)%R
                | Some w => (- w (eid e))%R
                end)
       else
         iadd m (index v) (index (target e))
           (neg_div_sqrt match weight' with
                         | None => 1%R
                         | Some w => w (eid e)
                         end
              (_get_deg g v deg weight * _get_deg g (target e) deg' weight')))).
  - reflexivity.
  - intros a' e. rewrite <- (Hd (target e)). specialize (Hw e).
    unfold weight_of in Hw.
    destruct normalized, weight as [w|], weight' as [w'|]; simpl;
      rewrite ?Hw, <- ?Hw; try reflexivity;
      do 2 f_equal; lra.
Qed.

Lemma get_deg_unit g v deg :
  _get_deg g v deg None = _get_deg g v deg (Some (fun _ => 1%R)).
Proof.
  unfold _get_deg, in_degree, out_degree, all_edges.
  destruct (String.eqb deg "total"); [|destruct (String.eqb deg "in")];
    rewrite sum_ones; try reflexivity.
  rewrite length_app. f_equal. lia.
Qed.

(** X9. Leaving [weight] out is the same as giving every edge the
    weight 1: [laplacian] returns the same outcome for every graph and
    every other argument, the degrees being counts in one case and
    sums of ones in the other. *)
Theorem laplacian_unit_weights g deg normalized sparse :
  laplacian g deg normalized sparse None
  = laplacian g deg normalized sparse (Some (fun _ => 1%R)).
Proof.
  unfold laplacian. f_equal.
  destruct sparse;
    rewrite (laplacian_loop_congr g (get_index g) deg deg normalized
               None (Some (fun _ => 1%R)));
    try reflexivity; intros v; apply get_deg_unit.
Qed.




(** ** The off-diagonal entries of the normalised Laplacian *)

Lemma acc_as_fold {E} (col : E -> nat) (val : E -> num) l j : forall x,
  acc col val l j x
  = fold_left nadd (map val (filter (fun e => col e =? j) l)) x.
Proof.
  unfold acc. induction l as [|e t IH]; intros x; simpl; auto.
  destruct (col e =? j); simpl; apply IH.
Qed.

Lemma fold_nadd_nonfinite l : fold_left nadd l NonFinite = NonFinite.
Proof. induction l as [|x t IH]; simpl; auto. Qed.

Lemma fold_nadd_fin {E} (f : E -> R) l : forall x,
  fold_left nadd (map (fun e => Fin (f e)) l) (Fin x)
  = Fin (x + sum (map f l)).
Proof.
  induction l as [|e t IH]; intros x; simpl.
  - unfold sum; simpl; f_equal; lra.
  - rewrite IH, sum_cons; f_equal; lra.
Qed.

Lemma sum_map_div {E} (w : E -> R) (s : R) l :
  sum (map (fun e => (- w e / s)%R) l) = (- sum (map w l) / s)%R.
Proof.
  induction l as [|e t IH]; simpl.
  - unfold sum; simpl. unfold Rdiv; ring.
  - rewrite !sum_cons, IH. unfold Rdiv; ring.
Qed.

(** the terms of parallel edges share their denominator *)
Lemma nsum_norm_terms {E} (w : E -> R) (x : R) (l : list E) :
  nsum (map (fun e => neg_div_sqrt (w e) x) l)
  = match l with
    | [] => Fin 0
    | _ => neg_div_sqrt (sum (map w l)) x
    end.
Proof.
  unfold nsum, neg_div_sqrt. destruct (Rle_dec x 0) as [Hle|Hgt].
  - destruct l as [|e t]; [reflexivity|]. simpl.
    apply fold_nadd_nonfinite.
  - rewrite (fold_nadd_fin (fun e => (- w e / sqrt x)%R)), sum_map_div.
    destruct l as [|e t].
    + f_equal. unfold sum; simpl. unfold Rdiv; ring.
    + f_equal; lra.
Qed.

Lemma laplacian_entry_normalized g deg sparse weight :
  graph_ok g -> valid_deg deg ->
  exists m,
    laplacian g deg true sparse weight = Ok m /\
    mshape m = (num_vertices g, num_vertices g) /\
    (forall u, In u (vertices g) -> (0 < _get_deg g u deg weight)%R ->
       item m (get_index g u) (get_index g u) = Ok (Fin 1)) /\
    forall u v, In u (vertices g) -> In v (vertices g) -> u <> v ->
      item m (get_index g u) (get_index g v)
      = Ok match parallel g u v with
           | [] => Fin 0
           | _ => neg_div_sqrt
                    (sum (map (weight_of weight) (parallel g u v)))
                    (_get_deg g u deg weight * _get_deg g v deg weight)
           end.
Proof.
  intros Hg Hdeg.
  destruct (laplacian_rows g deg true sparse weight Hg Hdeg)
    as (m & E & Hshape & Hrows).
  exists m; split; [exact E|]. split; [exact Hshape|]. split.
  - intros u Hu Hd. rewrite (Hrows u _ Hu) by now apply index_lt.
    unfold lap_row. rewrite Nat.eqb_refl. simpl negb. cbv iota.
    destruct (Rlt_dec 0 (_get_deg g u deg weight)); [|contradiction].
    destruct (Req_dec_T (_get_deg g u deg weight) 0); [lra | reflexivity].
  - intros u v Hu Hv Hne. rewrite (Hrows u _ Hu) by now apply index_lt.
    f_equal. unfold lap_row.
    rewrite (index_eqb g v u Hg Hv Hu).
    destruct (Nat.eqb_spec v u) as [->|_]; [contradiction|].
    rewrite acc_as_fold, filter_index_target by auto.
    rewrite <- (nsum_norm_terms (weight_of weight)). unfold nsum. f_equal.
    apply map_ext_in. intros e He. unfold parallel in He.
    apply filter_In in He. destruct He as [_ Ht]. apply Nat.eqb_eq in Ht.
    unfold lap_term, weight_of; simpl. now rewrite Ht.
Qed.

(** X11. In [laplacian(g, normalized=True)] without a weight map, on a
    well-formed graph, the entry for two distinct vertices [u], [v]
    whose degrees have a positive product is the term
    [-1 / sqrt(d_u * d_v)] added from 0 once for every edge from [u] to
    [v]; it is finite, and 0 when there is no such edge. *)
Theorem laplacian_normalized_entry g deg sparse u v :
  graph_ok g -> valid_deg deg ->
  In u (vertices g) -> In v (vertices g) -> u <> v ->
  (0 < _get_deg g u deg None * _get_deg g v deg None)%R ->
  exists m,
    laplacian g deg true sparse None = Ok m /\
    item m (get_index g u) (get_index g v)
    = Ok (nsum (map (fun _ => Fin (- 1 / sqrt (_get_deg g u deg None
                                               * _get_deg g v deg None)))
                  (parallel g u v))) /\
    (exists r, item m (get_index g u) (get_index g v) = Ok (Fin r)) /\
    (parallel g u v = [] ->
     item m (get_index g u) (get_index g v) = Ok (Fin 0)).
Proof.
  intros Hg Hdeg Hu Hv Hne Hpos.
  destruct (laplacian_rows g deg true sparse None Hg Hdeg)
    as (m & E & _ & Hrows).
  exists m; split; [exact E|].
  assert (Hent : item m (get_index g u) (get_index g v)
    = Ok (nsum (map (fun _ => Fin (- 1 / sqrt (_get_deg g u deg None
                                               * _get_deg g v deg None)))
                  (parallel g u v)))).
  { rewrite (Hrows u _ Hu) by now apply index_lt.
    f_equal. unfold lap_row.
    rewrite (index_eqb g v u Hg Hv Hu).
    destruct (Nat.eqb_spec v u) as [->|_]; [contradiction|].
    rewrite acc_as_fold, filter_index_target by auto.
    unfold nsum. f_equal.
    apply map_ext_in. intros e He. unfold parallel in He.
    apply filter_In in He. destruct He as [_ Ht]. apply Nat.eqb_eq in Ht.
    unfold lap_term; simpl. rewrite Ht. unfold neg_div_sqrt.
    destruct (Rle_dec _ 0) as [Hle|_]; [lra | reflexivity]. }
  split; [exact Hent|]. split.
  - rewrite Hent. unfold nsum. rewrite fold_nadd_fin. eauto.
  - intros Hnil. rewrite Hent, Hnil. reflexivity.
Qed.

Lemma laplacian_normalized_entry_und1 :
  exists m,
    laplacian und1 "out" true true None = Ok m /\
    item m 0 1 = Ok (nsum [Fin (- 1 / sqrt (INR 1 * INR 1))]) /\
    (exists r, item m 0 1 = Ok (Fin r)) /\
    (parallel und1 0 1 = [] -> item m 0 1 = Ok (Fin 0)).
Proof.
  apply (laplacian_normalized_entry und1 "out" true 0 1 und1_ok).
  - right; right; reflexivity.
  - simpl; auto.
  - simpl; auto.
  - lia.
  - change (0 < 1 * 1)%R. lra.
Defined.

(** X12. On a well-formed graph without weight map all of whose
    vertices have a positive degree (under the chosen [deg]), every
    entry of [laplacian(g, normalized=True)] is finite and the diagonal
    is 1 throughout. *)
Theorem laplacian_normalized_finite g deg sparse :
  graph_ok g -> valid_deg deg ->
  (forall v, In v (vertices g) -> (0 < _get_deg g v deg None)%R) ->
  exists m,
    laplacian g deg true sparse None = Ok m /\
    forall i j, i < num_vertices g -> j < num_vertices g ->
      exists r, item m i j = Ok (Fin r) /\ (i = j -> r = 1%R).
Proof.
  intros Hg Hdeg Hpos.
  destruct (laplacian_entry_normalized g deg sparse None Hg Hdeg)
    as (m & E & _ & Hdiag & Hoff).
  exists m; split; [exact E|]. intros i j Hi Hj.
  destruct (row_vertex g i Hg Hi) as (u & Hu & <-).
  destruct (row_vertex g j Hg Hj) as (v & Hv & <-).
  destruct (Nat.eq_dec u v) as [->|Hne].
  - exists 1%R. split; [|reflexivity]. apply Hdiag; auto.
  - rewrite (Hoff u v Hu Hv Hne).
    assert (Hp : (0 < _get_deg g u deg None * _get_deg g v deg None)%R)
      by (apply Rmult_lt_0_compat; auto).
    unfold neg_div_sqrt. destruct (Rle_dec _ 0) as [Hle|_]; [lra|].
    destruct (parallel g u v); eexists; (split; [reflexivity|]);
      intros Eq; exfalso; apply Hne; now apply (index_inj g).
Qed.

Lemma laplacian_normalized_finite_und1 :
  exists m,
    laplacian und1 "out" true true None = Ok m /\
    forall i j, i < 2 -> j < 2 ->
      exists r, item m i j = Ok (Fin r) /\ (i = j -> r = 1%R).
Proof.
  apply (laplacian_normalized_finite und1 "out" true und1_ok).
  - right; right; reflexivity.
  - intros v [<-|[<-|[]]]; change (0 < 1)%R; lra.
Defined.

(** X13. The Laplacian of a well-formed undirected graph without
    weight map is symmetric, normalised or not: [l[i, j] == l[j, i]]
    for all rows and columns.  The two entries receive the same number
    of equal terms; where a degree is 0 both are [-inf]. *)
Theorem laplacian_symmetric g deg normalized sparse :
  graph_ok g -> valid_deg deg -> is_directed g = false ->
  exists m,
    laplacian g deg normalized sparse None = Ok m /\
    forall i j, i < num_vertices g -> j < num_vertices g ->
      item m i j = item m j i.
Proof.
  intros Hg Hdeg Hund. destruct normalized.
  - destruct (laplacian_entry_normalized g deg sparse None Hg Hdeg)
      as (m & E & _ & _ & Hoff).
    exists m; split; [exact E|]. intros i j Hi Hj.
    destruct (row_vertex g i Hg Hi) as (u & Hu & <-).
    destruct (row_vertex g j Hg Hj) as (v & Hv & <-).
    destruct (Nat.eq_dec u v) as [->|Hne]; [reflexivity|].
    rewrite (Hoff u v Hu Hv Hne), (Hoff v u Hv Hu (not_eq_sym Hne)).
    rewrite (parallel_weight_symmetric g None u v Hund).
    rewrite (Rmult_comm (_get_deg g u deg None)).
    rewrite (parallel_undirected g u v Hund), (parallel_undirected g v u Hund).
    destruct (stored g u v), (stored g v u); reflexivity.
  - destruct (laplacian_entry_unnormalized g deg sparse None Hg Hdeg)
      as (m & E & _ & Hent).
    exists m; split; [exact E|]. intros i j Hi Hj.
    destruct (row_vertex g i Hg Hi) as (u & Hu & <-).
    destruct (row_vertex g j Hg Hj) as (v & Hv & <-).
    rewrite (Hent u v Hu Hv), (Hent v u Hv Hu), (Nat.eqb_sym v u).
    destruct (Nat.eqb_spec u v) as [->|_]; [reflexivity|].
    now rewrite (parallel_weight_symmetric g None u v Hund).
Qed.

Lemma laplacian_symmetric_und1 :
  exists m,
    laplacian und1 "in" true true None = Ok m /\
    forall i j, i < 2 -> j < 2 -> item m i j = item m j i.
Proof.
  apply (laplacian_symmetric und1 "in" true true und1_ok).
  - right; left; reflexivity.
  - reflexivity.
Defined.

(** ** Row and column sums of the incidence matrix *)

Lemma incidence_entry g sparse :
  graph_ok g ->
  exists m,
    incidence g sparse = Ok m /\
    mshape m = (num_vertices g, num_edges g) /\
    forall v j e, In v (vertices g) -> nth_error (edges g) j = Some e ->
      item m (get_index g v) j
      = Ok (Fin ((if source e =? v
                  then (if is_directed g then -1 else 1) else 0)
                 + (if target e =? v then 1 else 0))).
Proof.
  intros Hg.
  destruct (incidence_rows g sparse Hg) as (m & E & Hshape & Hrows).
  exists m; split; [exact E|]. split; [exact Hshape|].
  intros v j e Hv Hnth.
  assert (Hj : j < num_edges g)
    by (apply nth_error_Some; rewrite Hnth; discriminate).
  rewrite (Hrows v j Hv Hj). f_equal.
  unfold inc_row, out_edges, in_edges. destruct (is_directed g).
  - rewrite !acc_count.
    rewrite (column_sources g j e v Hg Hnth), (column_targets g j e v Hg Hnth).
    f_equal. destruct (source e =? v), (target e =? v); simpl; lra.
  - rewrite acc_count, filter_app, filter_map_comm. cbn [flip eid].
    rewrite (column_sources g j e v Hg Hnth), (column_targets g j e v Hg Hnth).
    rewrite length_app, length_map.
    f_equal. destruct (source e =? v), (target e =? v); simpl; lra.
Qed.

(** X14. In the incidence matrix of a well-formed graph every column
    sums to 0 when the graph is directed and to 2 when it is
    undirected, self-loops included. *)
Theorem incidence_col_sum g sparse j :
  graph_ok g -> j < num_edges g ->
  exists m,
    incidence g sparse = Ok m /\
    col_sum m j = Ok (Fin (if is_directed g then 0 else 2)).
Proof.
  intros Hg Hj.
  destruct (nth_error (edges g) j) as [e|] eqn:Hnth;
    [|apply nth_error_None in Hnth; unfold num_edges in Hj; lia].
  destruct (incidence_entry g sparse Hg) as (m & E & Hshape & Hent).
  exists m; split; [exact E|].
  destruct (ok_ends g Hg e (nth_error_In _ _ Hnth)) as [Hs Ht].
  rewrite (col_sum_vertices g m j
    (fun v => ((if source e =? v
                then (if is_directed g then -1 else 1) else 0)
               + (if target e =? v then 1 else 0))%R)).
  - rewrite sum_map_plus, !sum_single by (auto; apply (ok_nodup g Hg)).
    f_equal. f_equal. destruct (is_directed g); lra.
  - exact Hg.
  - now rewrite Hshape.
  - intros v Hv. now apply Hent.
Qed.

Lemma incidence_col_sum_path3 :
  exists m, incidence path3 true = Ok m /\ col_sum m 0 = Ok (Fin 0).
Proof.
  apply (incidence_col_sum path3 true 0 path3_ok). unfold num_edges; simpl; lia.
Defined.

Lemma sum_const {A} (a : R) (l : list A) :
  sum (map (fun _ => a) l) = (a * INR (length l))%R.
Proof.
  induction l as [|x t IH]; [unfold sum; simpl; lra|].
  cbn [map length]. rewrite sum_cons, IH, S_INR; lra.
Qed.

(** X15. In the incidence matrix of a well-formed graph the row of a
    vertex sums to its in-degree less its out-degree when the graph is
    directed, and to its degree (the number of its out-edges, a
    self-loop counting twice) when it is undirected. *)
Theorem incidence_row_sum g sparse v :
  graph_ok g -> In v (vertices g) ->
  exists m,
    incidence g sparse = Ok m /\
    row_sum m (get_index g v)
    = Ok (Fin (if is_directed g
               then INR (in_degree g v) - INR (out_degree g v)
               else INR (out_degree g v))).
Proof.
  intros Hg Hv.
  destruct (incidence_rows g sparse Hg) as (m & E & Hshape & Hrows).
  exists m; split; [exact E|].
  assert (Hout : forall e, In e (out_edges g v) ->
            In (get_eindex g (eid e)) (seq 0 (num_edges g))).
  { intros e He. apply in_seq; split; [lia|]. simpl.
    now apply (out_edges_eindex_lt g v). }
  assert (Hin : forall e, In e (in_edges g v) ->
            In (get_eindex g (eid e)) (seq 0 (num_edges g))).
  { intros e He. apply in_seq; split; [lia|]. simpl.
    now apply (in_edges_eindex_lt g v). }
  unfold in_degree, out_degree.
  destruct (is_directed g) eqn:Hdir.
  - rewrite (row_sum_fin m (get_index g v)
      (fun j => (sum (map (fun _ => (-1)%R)
                       (filter (fun e => get_eindex g (eid e) =? j)
                          (out_edges g v)))
                 + sum (map (fun _ => 1%R)
                         (filter (fun e => get_eindex g (eid e) =? j)
                            (in_edges g v))))%R)).
    + rewrite Hshape; cbn [snd].
      rewrite sum_map_plus, !sum_by_column by (auto using seq_NoDup).
      rewrite !sum_const. do 2 f_equal; lra.
    + rewrite Hshape; cbn [snd]; intros j Hj.
      rewrite (Hrows v j Hv Hj). f_equal. unfold inc_row. rewrite Hdir.
      rewrite !acc_fin. f_equal; lra.
  - rewrite (row_sum_fin m (get_index g v)
      (fun j => sum (map (fun _ => 1%R)
                      (filter (fun e => get_eindex g (eid e) =? j)
                         (out_edges g v))))).
    + rewrite Hshape; cbn [snd].
      rewrite sum_by_column by (auto using seq_NoDup).
      rewrite sum_const. do 2 f_equal; lra.
    + rewrite Hshape; cbn [snd]; intros j Hj.
      rewrite (Hrows v j Hv Hj). f_equal. unfold inc_row. rewrite Hdir.
      rewrite acc_fin. f_equal; lra.
Qed.

Lemma incidence_row_sum_loop1 :
  exists m, incidence loop1 true = Ok m /\ row_sum m 0 = Ok (Fin 2).
Proof.
  apply (incidence_row_sum loop1 true 0 loop1_ok). simpl; auto.
Defined.
